(** * jettison: error chains (package errors) and log entries (package log)

    A shallow embedding of [errors/errors.go] and [log/log.go], and the
    properties of [New], [Wrap], the options, [GetCodes], [errorEntry],
    [makeEntry] and [Error] proved on it.

    Definitions
    - [models], [jettison], [internal], [errors]: the chain model with Go
      values read as mathematical values (a slice is a list, a struct a
      record, a pointer to a struct the struct itself).
    - [heap]: the same package with the objects it writes to (the
      [*JettisonError] structs and the backing arrays of [Hops] and
      [Errors]) kept in an explicit store, for the aliasing question.
    - [log]: [errorEntry], [addErrors], [makeEntry] and [Error].
    - [examples], [agreement]: concrete values, and how a chain in the
      store is read as a chain value.

    Properties
    - [option_facts], [errors_facts]: options, [Wrap], [GetCodes].
    - [log_facts]: the fields of an error object, the sorted parameters,
      the nil error.
    - [heap_facts]: [Wrap] writes to new objects only.
    - [agreement_facts]: the two models of [Wrap] compute the same chain.
    - [errors_more], [log_more], [heap_more]: the shape of what [New] and
      [Wrap] return, [OriginalError], [IsAny], the codes, what an error
      object collects, [addErrors], and [New], [GetCodes] and [Wrap] of a
      foreign error in the store. *)

From Stdlib Require Import String Ascii List Bool Arith Lia.
From Stdlib Require Import Sorting.Sorted Sorting.Permutation.
From Stdlib Require Import Structures.OrderedTypeEx.
From stdpp Require Import base option list strings gmap.

Import ListNotations.
Set Warnings "-register-all".
Open Scope string_scope.
Open Scope list_scope.

(** Outcome of a Go call that may hit a run-time panic (here: an index
    expression out of range). *)
Inductive go (A : Type) : Type :=
| Return (a : A)
| Panic.
Arguments Return {A} a.
Arguments Panic {A}.

(** ** package models *)
Module models.

Record KeyValue := mkKeyValue { Key : string; Value : string }.

(** [models.Error]: one wrapped message layer. *)
Record Error := mkError {
  Code : string;
  Message : string;
  Source : string;
  Parameters : list KeyValue
}.

(** [models.Hop]. [StackTrace] is a slice compared with [nil] in the
    code, so [None] is the nil slice and [Some l] a non-nil one. *)
Record Hop := mkHop {
  Binary : string;
  StackTrace : option (list string);
  Errors : list Error
}.

(** [models.Metadata]; its [Code] field is [MetaCode] here (the name
    [Code] is taken by [Error]). *)
Record Metadata := mkMetadata {
  Trace : Hop;
  MetaCode : string
}.

(** The zero values [models.Hop{}] and [models.Metadata{}]. *)
Definition zeroHop : Hop := mkHop "" None [].
Definition zeroMetadata : Metadata := mkMetadata zeroHop "".

Definition setCode (c : string) (e : Error) : Error :=
  mkError c (Message e) (Source e) (Parameters e).
Definition setBinary (b : string) (h : Hop) : Hop :=
  mkHop b (StackTrace h) (Errors h).
Definition setStackTrace (st : option (list string)) (h : Hop) : Hop :=
  mkHop (Binary h) st (Errors h).
Definition setErrors (es : list Error) (h : Hop) : Hop :=
  mkHop (Binary h) (StackTrace h) es.
Definition setTrace (t : Hop) (md : Metadata) : Metadata :=
  mkMetadata t (MetaCode md).
Definition setMetaCode (c : string) (md : Metadata) : Metadata :=
  mkMetadata (Trace md) c.

End models.

(** ** package jettison: options *)
Module jettison.
Import models.

(** The three [jettison.OptionFunc] values built in [errors.go] (options
    of other packages are not in the sources at hand). An option is
    applied to a [jettison.Details], which is a [*models.Hop] or a
    [*models.Metadata]; the two cases of the type switch are the two
    functions [ApplyHop] and [ApplyMetadata]. *)
Inductive Option :=
| WithBinary (bin : string)
| WithCode (code : string)
| WithoutStackTrace.

Definition ApplyHop (o : Option) (det : Hop) : Hop :=
  match o with
  | WithBinary bin => setBinary bin det
  | WithCode code =>
      match Errors det with
      | e0 :: es => setErrors (setCode code e0 :: es) det
      | [] => det
      end
  | WithoutStackTrace =>
      if (length (Errors det) <=? 1)%nat then setStackTrace None det else det
  end.

Definition ApplyMetadata (o : Option) (det : Metadata) : Metadata :=
  match o with
  | WithBinary bin => setTrace (setBinary bin (Trace det)) det
  | WithCode code => setMetaCode code det
  | WithoutStackTrace => setTrace zeroHop det
  end.

(** [for _, o := range ol { o.Apply(&h); o.Apply(&md) }] *)
Fixpoint applyAll (ol : list Option) (h : Hop) (md : Metadata) : Hop * Metadata :=
  match ol with
  | [] => (h, md)
  | o :: ol' => applyAll ol' (ApplyHop o h) (ApplyMetadata o md)
  end.

(** The two halves of [applyAll]. *)
Definition applyHops (ol : list Option) (h : Hop) : Hop :=
  fold_left (fun h o => ApplyHop o h) ol h.
Definition applyMetadatas (ol : list Option) (md : Metadata) : Metadata :=
  fold_left (fun md o => ApplyMetadata o md) ol md.

(** The option gives the metadata trace a non-empty binary. *)
Definition namesBinary (o : Option) : bool :=
  match o with
  | WithBinary bin => if decide (bin = "") then false else true
  | _ => false
  end.

(** The metadata code that a list of options leaves, starting from [c0]. *)
Definition lastCode (ol : list Option) (c0 : string) : string :=
  fold_left (fun c o => match o with WithCode code => code | _ => c end) ol c0.

End jettison.

(** ** package internal: what a call site supplies

    [internal.NewHop], [internal.NewError] and [internal.GetStackTrace]
    are not part of the sources at hand, and what they return depends on
    the process and on the call stack. A [CallSite] is what they return at
    one call of [New] or [Wrap]; nothing is assumed about the values. *)
Module internal.
Import models.

Record CallSite := mkCallSite {
  (** [filepath.Base(os.Args[0])] *)
  binaryName : string;
  (** [internal.NewHop()] *)
  NewHop : Hop;
  (** [internal.NewError(msg)] *)
  NewError : string -> Error;
  (** [internal.GetStackTrace(skip)] *)
  GetStackTrace : nat -> option (list string)
}.

End internal.

(** ** package errors, on values *)
Module errors.
Import models jettison internal.

(** Non-nil values of the Go interface [error]. A foreign error is known
    by its [Error()] text and by what it unwraps to: nothing ([Leaf]), one
    error or nil through [Unwrap() error] ([Single]), several through
    [Unwrap() []error] ([Joined]). [Jettison] is a [*JettisonError] with
    its fields. The interface value [nil] is [None] in [option error]. *)
Inductive error :=
| Leaf (text : string)
| Single (text : string) (next : option error)
| Joined (text : string) (children : list error)
| Jettison (message : string) (err : option error) (metadata : Metadata)
           (Hops : list Hop) (OriginalErr : option error).

Definition Hops (e : error) : list Hop :=
  match e with Jettison _ _ _ hs _ => hs | _ => [] end.
Definition metadata (e : error) : Metadata :=
  match e with Jettison _ _ md _ _ => md | _ => zeroMetadata end.
Definition message (e : error) : string :=
  match e with Jettison m _ _ _ _ => m | _ => "" end.
Definition wrapped (e : error) : option error :=
  match e with Jettison _ w _ _ _ => w | _ => None end.
Definition OriginalErr (e : error) : option error :=
  match e with Jettison _ _ _ _ o => o | _ => None end.

Definition newMetadata (c : CallSite) : Metadata :=
  mkMetadata (mkHop (binaryName c) (GetStackTrace c 3) []) "".

Definition trace (c : CallSite) : Hop :=
  mkHop (binaryName c) (GetStackTrace c 3) [].

(** Modelled from the spec: the [Unwrap] method of [*JettisonError] is
    not in the sources; the chain value unwraps to the error it wrapped
    (the [err] field that [Wrap] records). *)
Definition JettisonError_Unwrap (e : error) : option error := wrapped e.

(** The type assertion [e.(unwrapper)]: the dynamic type has a method
    [Unwrap() error]. A joined error has [Unwrap() []error] instead. *)
Definition unwrapper (e : error) : option (option error) :=
  match e with
  | Jettison _ _ _ _ _ => Some (JettisonError_Unwrap e)
  | Single _ next => Some next
  | Leaf _ | Joined _ _ => None
  end.

(** The loop of [hasTrace], by recursion on the error it walks down
    (see [hasTrace_loop] for the loop as the source has it). *)
Fixpoint hasTrace (e : error) : Hop * bool :=
  match e with
  | Jettison _ w md _ _ =>
      if decide (Binary (Trace md) = "")
      then match w with
           | Some e' => hasTrace e'
           | None => (zeroHop, false)
           end
      else (Trace md, true)
  | Single _ (Some e') => hasTrace e'
  | Single _ None => (zeroHop, false)
  | Leaf _ | Joined _ _ => (zeroHop, false)
  end.

Definition hasTraceErr (e : option error) : Hop * bool :=
  match e with
  | Some e' => hasTrace e'
  | None => (zeroHop, false)
  end.

Definition New (c : CallSite) (msg : string) (ol : list Option) : error :=
  let h := NewHop c in
  let h := setStackTrace (GetStackTrace c 2) h in
  let h := setErrors [NewError c msg] h in
  let md := newMetadata c in
  let '(h, md) := applyAll ol h md in
  Jettison msg None md [h] None.

(** Modelled from the spec: [Clone] is not in the sources; it is a deep
    copy, which on values is the value itself. *)
Definition Clone (e : error) : error := e.

(** The hops of [je] after the [if !ok ... else ...] of [Wrap], with the
    original foreign error when there is one. *)
Definition wrapTarget (c : CallSite) (e : error) : list Hop * option error :=
  match e with
  | Jettison _ _ _ _ orig => (Hops (Clone e), orig)
  | Leaf text | Single text _ | Joined text _ =>
      ([setErrors [mkError "" text "" []] (NewHop c)], Some e)
  end.

Definition Wrap (c : CallSite) (err : option error) (msg : string)
    (ol : list Option) : go (option error) :=
  match err with
  | None => Return None
  | Some e =>
      let '(hops, orig) := wrapTarget c e in
      match hops with
      | [] => Panic
      | h0 :: rest =>
          let h0 := match StackTrace h0 with
                    | None => setStackTrace (GetStackTrace c 2) h0
                    | Some _ => h0
                    end in
          let h0 := setErrors (NewError c msg :: Errors h0) h0 in
          let md := zeroMetadata in
          let md := if snd (hasTrace e) then md else setTrace (trace c) md in
          let '(h0, md) := applyAll ol h0 md in
          Return (Some (Jettison msg (Some e) md (h0 :: rest) orig))
      end
  end.

Definition GetCodes (err : option error) : list string :=
  match err with
  | Some (Jettison _ _ _ hops _) =>
      flat_map (fun h =>
        flat_map (fun e => if decide (Code e = "") then [] else [Code e])
                 (Errors h)) hops
  | _ => []
  end.

(** *** Notions used to state the properties *)

Definition isJettison (e : error) : bool :=
  match e with Jettison _ _ _ _ _ => true | _ => false end.

(** The stack trace of the current hop. *)
Definition hopTrace (e : error) : option (list string) :=
  match Hops e with
  | h :: _ => StackTrace h
  | [] => None
  end.


(** Repeated [Wrap] calls, each on the result of the one before. *)
Fixpoint WrapAll (e : error) (calls : list (CallSite * string * list Option))
    : go (option error) :=
  match calls with
  | [] => Return (Some e)
  | (c, msg, ol) :: calls' =>
      match Wrap c (Some e) msg ol with
      | Return (Some e') => WrapAll e' calls'
      | Return None => Return None
      | Panic => Panic
      end
  end.

(** The hops of the chain that [Wrap] returns. *)
Definition wrapHops (c : CallSite) (e : error) (msg : string) (ol : list Option)
    : go (list Hop) :=
  match Wrap c (Some e) msg ol with
  | Return (Some e') => Return (Hops e')
  | Return None => Return []
  | Panic => Panic
  end.

(** The number of segments of the current hop when [Wrap] is about to
    prepend: those of a chain's current hop, or the one segment made for
    a foreign error. *)
Definition segmentsBefore (e : error) : nat :=
  match e with
  | Jettison _ _ _ (h :: _) _ => length (Errors h)
  | Jettison _ _ _ [] _ => 0
  | _ => 1
  end.

Definition clearCurrentTrace (r : go (list Hop)) : go (list Hop) :=
  match r with
  | Return (h :: rest) => Return (setStackTrace None h :: rest)
  | _ => r
  end.

(** The hop that [Wrap] readies before the options: the trace captured
    if there was none, the new segment in front. *)
Definition readyHop (c : CallSite) (msg : string) (h0 : Hop) : Hop :=
  setErrors (NewError c msg :: Errors h0)
    (match StackTrace h0 with
     | None => setStackTrace (GetStackTrace c 2) h0
     | Some _ => h0
     end).


(** The metadata [Wrap] starts from, before the options: empty when the
    wrapped error already has a trace owner, with a fresh trace when not. *)
Definition freshMetadata (c : CallSite) (found : bool) : Metadata :=
  if found then zeroMetadata else setTrace (trace c) zeroMetadata.

End errors.

(** ** package errors, with the store

    [Wrap] writes through pointers: to the [*JettisonError] it returns, to
    the backing array of its [Hops] and, in [WithCode], to the backing
    array of a hop's [Errors]. Here those three kinds of objects live in a
    store, a slice is a reference to its backing array, and an [error]
    interface value is a reference to the value it holds. Stack traces and
    parameter lists are never written element by element in this package
    and stay values. *)
Module heap.
Import models(KeyValue, Error, mkError, Code, Message, Source, Parameters, setCode).

(** A slice: [nil], or the backing array at a location (its length is
    the array's; the code never re-slices). *)
Definition slice := option positive.

(** An [error] interface value: [nil], or the object it refers to. *)
Definition error := option positive.

Record Hop := mkHop {
  Binary : string;
  StackTrace : option (list string);
  Errors : slice
}.

Record Metadata := mkMetadata {
  Trace : Hop;
  MetaCode : string
}.

Record JettisonError := mkJettisonError {
  message : string;
  err : error;
  metadata : Metadata;
  Hops : slice;
  OriginalErr : error
}.

(** What a foreign error unwraps to: nothing, [Unwrap() error] or
    [Unwrap() []error]. *)
Inductive unwrapping :=
| NoUnwrap
| UnwrapOne (next : error)
| UnwrapMany (children : list error).

Inductive object :=
| Foreign (text : string) (u : unwrapping)
| Jettison (je : JettisonError).

Record store := mkStore {
  objects : gmap positive object;
  hopArrays : gmap positive (list Hop);
  errorArrays : gmap positive (list Error)
}.

Definition zeroHop : Hop := mkHop "" None None.
Definition zeroMetadata : Metadata := mkMetadata zeroHop "".

Definition setBinary (b : string) (h : Hop) : Hop :=
  mkHop b (StackTrace h) (Errors h).
Definition setStackTrace (st : option (list string)) (h : Hop) : Hop :=
  mkHop (Binary h) st (Errors h).
Definition setErrors (es : slice) (h : Hop) : Hop :=
  mkHop (Binary h) (StackTrace h) es.
Definition setTrace (t : Hop) (md : Metadata) : Metadata :=
  mkMetadata t (MetaCode md).
Definition setMetaCode (c : string) (md : Metadata) : Metadata :=
  mkMetadata (Trace md) c.

(** What the helpers of package [internal] return at one call site. *)
Record CallSite := mkCallSite {
  binaryName : string;
  NewHop : Hop;
  NewError : string -> Error;
  GetStackTrace : nat -> option (list string)
}.

(** Ways a run stops without a value: a Go panic on an index out of
    range, a reference to nothing (the store is ill-formed), or the loop
    of [hasTrace] still running when the fuel is spent. *)
Inductive fault := IndexOutOfRange | InvalidReference | OutOfFuel.

Definition M (A : Type) : Type := store -> fault + (A * store).

Definition ret {A} (a : A) : M A := fun s => inr (a, s).
Definition bind {A B} (m : M A) (k : A -> M B) : M B :=
  fun s => match m s with
           | inl f => inl f
           | inr (a, s') => k a s'
           end.
Definition fail {A} (f : fault) : M A := fun _ => inl f.

Notation "'do' x <- m ; k" := (bind m (fun x => k))
  (at level 10, x name, m at level 100, k at level 200).
Notation "m ;; k" := (bind m (fun _ => k))
  (at level 100, k at level 200, right associativity).

(** *** The store's primitives *)

Definition allocObject (o : object) : M positive := fun s =>
  let l := fresh (dom (objects s)) in
  inr (l, mkStore (<[l := o]> (objects s)) (hopArrays s) (errorArrays s)).
Definition allocHops (hs : list Hop) : M positive := fun s =>
  let l := fresh (dom (hopArrays s)) in
  inr (l, mkStore (objects s) (<[l := hs]> (hopArrays s)) (errorArrays s)).
Definition allocErrors (es : list Error) : M positive := fun s =>
  let l := fresh (dom (errorArrays s)) in
  inr (l, mkStore (objects s) (hopArrays s) (<[l := es]> (errorArrays s))).

Definition readObject (l : positive) : M object := fun s =>
  match objects s !! l with
  | Some o => inr (o, s)
  | None => inl InvalidReference
  end.
Definition readHops (l : positive) : M (list Hop) := fun s =>
  match hopArrays s !! l with
  | Some hs => inr (hs, s)
  | None => inl InvalidReference
  end.
Definition readErrors (l : positive) : M (list Error) := fun s =>
  match errorArrays s !! l with
  | Some es => inr (es, s)
  | None => inl InvalidReference
  end.

Definition writeObject (l : positive) (o : object) : M unit := fun s =>
  match objects s !! l with
  | Some _ => inr (tt, mkStore (<[l := o]> (objects s)) (hopArrays s) (errorArrays s))
  | None => inl InvalidReference
  end.
Definition writeHops (l : positive) (hs : list Hop) : M unit := fun s =>
  match hopArrays s !! l with
  | Some _ => inr (tt, mkStore (objects s) (<[l := hs]> (hopArrays s)) (errorArrays s))
  | None => inl InvalidReference
  end.
Definition writeErrors (l : positive) (es : list Error) : M unit := fun s =>
  match errorArrays s !! l with
  | Some _ => inr (tt, mkStore (objects s) (hopArrays s) (<[l := es]> (errorArrays s)))
  | None => inl InvalidReference
  end.

(** The elements of a slice of segments; [nil] has none. *)
Definition segments (sl : slice) : M (list Error) :=
  match sl with
  | None => ret []
  | Some a => readErrors a
  end.

(** [*je] for a [*JettisonError]. *)
Definition readJettison (p : positive) : M JettisonError :=
  do o <- readObject p;
  match o with
  | Jettison je => ret je
  | Foreign _ _ => fail InvalidReference
  end.

(** [je.Hops[0]], read and written; an index out of range panics. *)
Definition readHop0 (p : positive) : M Hop :=
  do je <- readJettison p;
  match Hops je with
  | None => fail IndexOutOfRange
  | Some a =>
      do hs <- readHops a;
      match hs with
      | [] => fail IndexOutOfRange
      | h0 :: _ => ret h0
      end
  end.

Definition writeHop0 (p : positive) (h : Hop) : M unit :=
  do je <- readJettison p;
  match Hops je with
  | None => fail IndexOutOfRange
  | Some a =>
      do hs <- readHops a;
      match hs with
      | [] => fail IndexOutOfRange
      | _ :: rest => writeHops a (h :: rest)
      end
  end.

(** *** Options, applied through a [*models.Hop] or a [*models.Metadata] *)

Import jettison(Option, WithBinary, WithCode, WithoutStackTrace).

(** [o.Apply(det)] for [det : *models.Hop]. The hop struct is passed in
    and handed back (the caller stores it where [det] points); the
    segment [det.Errors[0]] is written in the store. *)
Definition ApplyHop (o : Option) (det : Hop) : M Hop :=
  match o with
  | WithBinary bin => ret (setBinary bin det)
  | WithCode code =>
      match Errors det with
      | None => ret det
      | Some a =>
          do es <- readErrors a;
          match es with
          | e0 :: rest => writeErrors a (setCode code e0 :: rest) ;; ret det
          | [] => ret det
          end
      end
  | WithoutStackTrace =>
      do es <- segments (Errors det);
      if (length es <=? 1)%nat then ret (setStackTrace None det) else ret det
  end.

Definition ApplyMetadata (o : Option) (det : Metadata) : Metadata :=
  match o with
  | WithBinary bin => setTrace (setBinary bin (Trace det)) det
  | WithCode code => setMetaCode code det
  | WithoutStackTrace => setTrace zeroHop det
  end.

(** *** Clone *)

(** Modelled from the spec: [Clone] is not in the sources. It is the
    deep copy of the spec, sharing no backing array with its input: the
    array of hops is copied and, hop by hop, the array of segments. *)
Definition cloneErrors (sl : slice) : M slice :=
  match sl with
  | None => ret None
  | Some a => do es <- readErrors a; do a' <- allocErrors es; ret (Some a')
  end.

Definition cloneHop (h : Hop) : M Hop :=
  do es <- cloneErrors (Errors h);
  ret (mkHop (Binary h) (StackTrace h) es).

Fixpoint cloneHopList (hs : list Hop) : M (list Hop) :=
  match hs with
  | [] => ret []
  | h :: hs' =>
      do h' <- cloneHop h;
      do hs'' <- cloneHopList hs';
      ret (h' :: hs'')
  end.

Definition cloneHops (sl : slice) : M slice :=
  match sl with
  | None => ret None
  | Some a =>
      do hs <- readHops a;
      do hs' <- cloneHopList hs;
      do a' <- allocHops hs';
      ret (Some a')
  end.

Definition Clone (p : positive) : M positive :=
  do je <- readJettison p;
  do tr <- cloneHop (Trace (metadata je));
  do hops <- cloneHops (Hops je);
  allocObject (Jettison (mkJettisonError (message je) (err je)
                           (mkMetadata tr (MetaCode (metadata je)))
                           hops (OriginalErr je))).

(** *** New, Wrap, hasTrace *)

Definition newMetadata (c : CallSite) : Metadata :=
  mkMetadata (mkHop (binaryName c) (GetStackTrace c 3) None) "".

Definition trace (c : CallSite) : Hop :=
  mkHop (binaryName c) (GetStackTrace c 3) None.

(** [for e != nil { ... }] of [hasTrace]; each iteration spends one unit
    of fuel. A chain value unwraps to its [err] field (see
    [errors.JettisonError_Unwrap]). The loop only reads. *)
Fixpoint hasTrace (fuel : nat) (e : error) (s : store) : fault + (Hop * bool) :=
  match e with
  | None => inr (zeroHop, false)
  | Some p =>
      match fuel with
      | O => inl OutOfFuel
      | S fuel' =>
          match objects s !! p with
          | None => inl InvalidReference
          | Some (Jettison je) =>
              if decide (Binary (Trace (metadata je)) = "")
              then hasTrace fuel' (err je) s
              else inr (Trace (metadata je), true)
          | Some (Foreign _ (UnwrapOne next)) => hasTrace fuel' next s
          | Some (Foreign _ _) => inr (zeroHop, false)
          end
      end
  end.

Definition hasTraceM (fuel : nat) (e : error) : M (Hop * bool) := fun s =>
  match hasTrace fuel e s with
  | inl f => inl f
  | inr r => inr (r, s)
  end.

(** [for _, o := range ol { o.Apply(&h); o.Apply(&md) }] with [h] a
    local variable, as in [New]. *)
Fixpoint applyLocal (ol : list Option) (h : Hop) (md : Metadata) : M (Hop * Metadata) :=
  match ol with
  | [] => ret (h, md)
  | o :: ol' =>
      do h' <- ApplyHop o h;
      applyLocal ol' h' (ApplyMetadata o md)
  end.

(** [for _, o := range ol { o.Apply(&je.Hops[0]); o.Apply(&md) }] *)
Fixpoint applyAt (p : positive) (ol : list Option) (md : Metadata) : M Metadata :=
  match ol with
  | [] => ret md
  | o :: ol' =>
      do h <- readHop0 p;
      do h' <- ApplyHop o h;
      writeHop0 p h' ;;
      applyAt p ol' (ApplyMetadata o md)
  end.

Definition New (c : CallSite) (msg : string) (ol : list Option) : M error :=
  let h := NewHop c in
  let h := setStackTrace (GetStackTrace c 2) h in
  do a <- allocErrors [NewError c msg];
  let h := setErrors (Some a) h in
  let md := newMetadata c in
  do hmd <- applyLocal ol h md;
  do harr <- allocHops [fst hmd];
  do p <- allocObject (Jettison (mkJettisonError msg None (snd hmd) (Some harr) None));
  ret (Some p).

(** The [if !ok { ... } else { je = je.Clone() }] of [Wrap]. *)
Definition wrapTarget (c : CallSite) (p : positive) : M positive :=
  do o <- readObject p;
  match o with
  | Jettison _ => Clone p
  | Foreign text _ =>
      do harr <- allocHops [NewHop c];
      do je <- allocObject (Jettison (mkJettisonError "" None zeroMetadata
                                        (Some harr) (Some p)));
      do earr <- allocErrors [mkError "" text "" []];
      do h0 <- readHop0 je;
      writeHop0 je (setErrors (Some earr) h0) ;;
      ret je
  end.

Definition Wrap (fuel : nat) (c : CallSite) (err : error) (msg : string)
    (ol : list Option) : M error :=
  match err with
  | None => ret None
  | Some p =>
      do je <- wrapTarget c p;
      do h0 <- readHop0 je;
      (match StackTrace h0 with
       | None => writeHop0 je (setStackTrace (GetStackTrace c 2) h0)
       | Some _ => ret tt
       end) ;;
      do h0 <- readHop0 je;
      do old <- segments (Errors h0);
      do earr <- allocErrors (NewError c msg :: old);
      writeHop0 je (setErrors (Some earr) h0) ;;
      let md := zeroMetadata in
      do found <- hasTraceM fuel err;
      let md := if snd found then md else setTrace (trace c) md in
      do md <- applyAt je ol md;
      do j <- readJettison je;
      writeObject je (Jettison (mkJettisonError msg err md (Hops j) (OriginalErr j))) ;;
      ret (Some je)
  end.

(** [GetCodes], reading the hops and segments from the store. *)
Fixpoint hopCodes (hs : list Hop) : M (list string) :=
  match hs with
  | [] => ret []
  | h :: hs' =>
      do es <- segments (Errors h);
      do cs <- hopCodes hs';
      ret (flat_map (fun e => if decide (Code e = "") then [] else [Code e]) es ++ cs)
  end.

Definition GetCodes (err : error) : M (list string) :=
  match err with
  | None => ret []
  | Some p =>
      do o <- readObject p;
      match o with
      | Foreign _ _ => ret []
      | Jettison je =>
          match Hops je with
          | None => ret []
          | Some a => do hs <- readHops a; hopCodes hs
          end
      end
  end.

(** *** What a caller holding [p] can observe of the chain: its
    metadata and its hops with their segments. *)
Record HopView := mkHopView {
  vBinary : string;
  vStackTrace : option (list string);
  vErrors : list Error
}.

Definition viewHop (s : store) (h : Hop) : option HopView :=
  match Errors h with
  | None => Some (mkHopView (Binary h) (StackTrace h) [])
  | Some a =>
      match errorArrays s !! a with
      | Some es => Some (mkHopView (Binary h) (StackTrace h) es)
      | None => None
      end
  end.

Fixpoint viewHopList (s : store) (hs : list Hop) : option (list HopView) :=
  match hs with
  | [] => Some []
  | h :: hs' =>
      match viewHop s h, viewHopList s hs' with
      | Some v, Some vs => Some (v :: vs)
      | _, _ => None
      end
  end.

Definition viewHops (s : store) (sl : slice) : option (list HopView) :=
  match sl with
  | None => Some []
  | Some a =>
      match hopArrays s !! a with
      | Some hs => viewHopList s hs
      | None => None
      end
  end.

Record ChainView := mkChainView {
  vMessage : string;
  vErr : error;
  vTrace : HopView;
  vMetaCode : string;
  vHops : list HopView;
  vOriginalErr : error
}.

Definition view (s : store) (p : positive) : option ChainView :=
  match objects s !! p with
  | Some (Jettison je) =>
      match viewHop s (Trace (metadata je)), viewHops s (Hops je) with
      | Some t, Some hs =>
          Some (mkChainView (message je) (err je) t (MetaCode (metadata je))
                            hs (OriginalErr je))
      | _, _ => None
      end
  | _ => None
  end.

(** *** Notions used to state the properties *)

(** Everything allocated in [s] is in [s'] with the same content. *)
Definition extends (s s' : store) : Prop :=
  objects s ⊆ objects s' /\ hopArrays s ⊆ hopArrays s' /\
  errorArrays s ⊆ errorArrays s'.

(** The slice is nil or refers to an array of [s'] that [s] does not have. *)
Definition newSegments (s s' : store) (sl : slice) : Prop :=
  match sl with
  | None => True
  | Some b => errorArrays s !! b = None /\ is_Some (errorArrays s' !! b)
  end.

(** The chain at [q] in [s], with its hops [hs] in the array at [a],
    shares no object with [s0]: the struct, the array of hops and the
    arrays of segments are all new. *)
Definition ownsHops (s0 s : store) (q a : positive) (hs : list Hop) : Prop :=
  objects s0 !! q = None /\ hopArrays s0 !! a = None /\
  (exists je, objects s !! q = Some (Jettison je) /\ Hops je = Some a) /\
  hopArrays s !! a = Some hs /\
  Forall (fun h => newSegments s0 s (Errors h)) hs.

Definition independent (s0 s : store) (q : positive) : Prop :=
  exists a hs, ownsHops s0 s q a hs.

(** Arrays of segments are never freed. *)
Definition keepsSegments (s s' : store) : Prop :=
  forall b, is_Some (errorArrays s !! b) -> is_Some (errorArrays s' !! b).

End heap.

(** ** package log *)
Module log.
Import models(KeyValue, mkKeyValue, Key, Value).

(** [type Level string] *)
Definition Level := string.
Definition LevelInfo : Level := "info".
Definition LevelError : Level := "error".
Definition LevelDebug : Level := "debug".

(** The fields of [*internal.Error] that [errorEntry] reads. *)
Record InternalError := mkInternalError {
  ieCode : string;
  ieSource : string;
  ieBinary : string;
  ieKV : list KeyValue;
  ieStackTrace : list string
}.

(** Modelled from the spec: package [trace] and [MakeElastic] are not in
    the sources. The merge takes the hops in the order given, appends
    the frames of each as they are and tags every frame with the hop's
    binary; a merged frame is the pair (frame, binary). *)
Definition Merge := list (string * string).
Definition Merge_Add (m : Merge) (st : list string) (binary : string) : Merge :=
  m ++ map (fun f => (f, binary)) st.
Definition Merge_FullTrace (m : Merge) : list (string * string) := m.
Definition MakeElastic (t : list (string * string)) : list (string * string) := t.

Record ErrorObject := mkErrorObject {
  eoMessage : string;
  eoCode : string;
  eoSource : string;
  eoStack : list string;
  eoStackTrace : list (string * string);
  eoParameters : list KeyValue
}.

(** [ErrorObject{}] *)
Definition zeroErrorObject : ErrorObject := mkErrorObject "" "" "" [] [] [].

Record Entry := mkEntry {
  Message : string;
  Source : string;
  EntryLevel : Level;
  Timestamp : Z;
  Parameters : list KeyValue;
  ErrorCode : option string;
  EntryErrorObject : option ErrorObject;
  ErrorObjects : list ErrorObject
}.

Definition setLevel (l : Level) (e : Entry) : Entry :=
  mkEntry (Message e) (Source e) l (Timestamp e) (Parameters e)
          (ErrorCode e) (EntryErrorObject e) (ErrorObjects e).
Definition setParameters (ps : list KeyValue) (e : Entry) : Entry :=
  mkEntry (Message e) (Source e) (EntryLevel e) (Timestamp e) ps
          (ErrorCode e) (EntryErrorObject e) (ErrorObjects e).
Definition setErrorCode (c : option string) (e : Entry) : Entry :=
  mkEntry (Message e) (Source e) (EntryLevel e) (Timestamp e) (Parameters e)
          c (EntryErrorObject e) (ErrorObjects e).
Definition setErrorObject (o : option ErrorObject) (e : Entry) : Entry :=
  mkEntry (Message e) (Source e) (EntryLevel e) (Timestamp e) (Parameters e)
          (ErrorCode e) o (ErrorObjects e).
Definition setErrorObjects (os : list ErrorObject) (e : Entry) : Entry :=
  mkEntry (Message e) (Source e) (EntryLevel e) (Timestamp e) (Parameters e)
          (ErrorCode e) (EntryErrorObject e) os.

(** [type logOption func(e *Entry)]: an option rewrites the entry. *)
Definition Option := Entry -> Entry.

Definition WithLevel (level : Level) : Option := setLevel level.

(** What [log.go] uses of Go error values and of package [errors]: the
    [Error()] text, the two type assertions of [errorEntry], and the
    functions [errors.Flatten], [errors.GetCodes] and [errors.New] (in
    the revision of package [errors] that [log.go] is written against,
    [Flatten] and [*internal.Error] exist; they are not in the sources
    at hand). [error] is the type of non-nil error values. *)
Class Errors := {
  error : Type;
  errorText : error -> string;
  isJoin : error -> bool;
  asInternal : error -> option InternalError;
  Flatten : error -> list (list error);
  GetCodes : option error -> list string;
  errorsNew : string -> error
}.

(** What the entry builder takes from its surroundings. [sort_Slice less]
    is [sort.Slice] with the comparison on elements; [Caller] is the
    rendering of [stack.Caller(skip)], [Now] is [time.Now()]. *)
Class Runtime := {
  context : Type;
  ContextKeyValues : context -> list KeyValue;
  Caller : nat -> string;
  Now : Z;
  sort_Slice : (KeyValue -> KeyValue -> bool) -> list KeyValue -> list KeyValue
}.

(** The contract of [sort.Slice]: the elements are rearranged, and
    afterwards no element is [less] than one before it. The sort need
    not be stable. *)
Definition sorted_by (less : KeyValue -> KeyValue -> bool) : list KeyValue -> Prop :=
  StronglySorted (fun a b => less b a = false).

Class SortContract `{Runtime} : Prop := {
  sort_Slice_perm : forall less l, Permutation l (sort_Slice less l);
  sort_Slice_sorted : forall less l,
    (forall a, less a a = false) ->
    (forall a b c, less a b = true -> less b c = true -> less a c = true) ->
    (forall a b c, less a b = false -> less b c = false -> less a c = false) ->
    sorted_by less (sort_Slice less l)
}.

(** [l.Parameters[i].Key < l.Parameters[j].Key], on Go strings: the
    order of their bytes. *)
Definition keyLess (a b : KeyValue) : bool := String.ltb (Key a) (Key b).

(** Sorted by key: every key is at most the keys after it. *)
Definition keysAscending : list KeyValue -> Prop :=
  StronglySorted (fun a b => String.leb (Key a) (Key b) = true).

Section entry.
Context `{Runtime}.

Definition newEntry (msg : string) (level : Level) (stackSkip : nat) : Entry :=
  mkEntry msg (Caller stackSkip) level Now [] None None [].

Definition makeEntry (ctx : context) (msg : string) (lvl : Level)
    (opts : list Option) : Entry :=
  let l := newEntry msg lvl 3 in
  let l := fold_left (fun l (o : Option) => o l) opts l in
  let l := setParameters (Parameters l ++ ContextKeyValues ctx) l in
  let l := setParameters (sort_Slice keyLess (Parameters l)) l in
  l.
End entry.

Section errors.
Context `{Errors}.

(** One iteration of the loop of [errorEntry]. *)
Definition errorStep (acc : ErrorObject * Merge) (err : error) : ErrorObject * Merge :=
  let '(e, m) := acc in
  let msg := if isJoin err then ""
             else if decide (eoMessage e = "") then errorText err
             else eoMessage e in
  match asInternal err with
  | None =>
      (mkErrorObject msg (eoCode e) (eoSource e) (eoStack e) (eoStackTrace e)
                     (eoParameters e), m)
  | Some je =>
      let code := if decide (eoCode e = "") then ieCode je else eoCode e in
      let source := if decide (ieSource je = "") then eoSource e else ieSource je in
      let stack := if decide (ieBinary je = "") then eoStack e
                   else eoStack e ++ [ieBinary je] in
      let params := eoParameters e ++ ieKV je in
      let m := if (0 <? length (ieStackTrace je))%nat
               then Merge_Add m (ieStackTrace je) (ieBinary je) else m in
      (mkErrorObject msg code source stack (eoStackTrace e) params, m)
  end.

Definition errorEntry (errPath : list error) : ErrorObject :=
  match errPath with
  | [] => zeroErrorObject
  | _ =>
      let '(e, m) := fold_left errorStep errPath (zeroErrorObject, []) in
      mkErrorObject (eoMessage e) (eoCode e) (eoSource e) (eoStack e)
                    (MakeElastic (Merge_FullTrace m)) (eoParameters e)
  end.

(** The [else] branch of [addErrors]: one error object per path. *)
Definition addPath (e : Entry) (p : list error) : Entry :=
  let ent := errorEntry p in
  let e := setParameters (Parameters e ++ eoParameters ent) e in
  setErrorObjects (ErrorObjects e ++ [ent]) e.

Definition addErrors (e : Entry) (err : option error) : Entry :=
  match err with
  | None => e
  | Some err =>
      match Flatten err with
      | [p] =>
          let ent := errorEntry p in
          let e := setParameters (Parameters e ++ eoParameters ent) e in
          setErrorObject (Some ent) e
      | paths => fold_left addPath paths e
      end
  end.

Definition WithError (err : option error) : Option := fun e =>
  let codes := GetCodes err in
  let e := match codes with
           | c :: _ => setErrorCode (Some c) e
           | [] => e
           end in
  addErrors e err.
End errors.

(** *** The fields of an error object, in the words of the spec *)

(** The first and the last non-empty string of a list, [""] without one. *)
Fixpoint firstNonEmpty (l : list string) : string :=
  match l with
  | [] => ""
  | s :: l' => if decide (s = "") then firstNonEmpty l' else s
  end.

Fixpoint lastNonEmpty (l : list string) : string :=
  match l with
  | [] => ""
  | s :: l' => if decide (lastNonEmpty l' = "") then s else lastNonEmpty l'
  end.

Section fields.
Context `{Errors}.

(** The nodes of a path that are [*internal.Error], outermost first. *)
Definition internals (path : list error) : list InternalError :=
  omap asInternal path.

(** "the last (innermost) segment message among non-joined nodes on
    that path (joined nodes contribute no message)" *)
Definition spec_message (path : list error) : string :=
  List.last (map errorText (List.filter (fun e => negb (isJoin e)) path)) "".

(** "the first non-empty code found walking outer-to-inner" *)
Definition spec_code (path : list error) : string :=
  firstNonEmpty (map ieCode (internals path)).

(** "the last non-empty per-segment source found along the path" *)
Definition spec_source (path : list error) : string :=
  lastNonEmpty (map ieSource (internals path)).

(** The nodes of a path after its last joined node; the whole path
    when no node is joined. *)
Fixpoint afterLastJoin (path : list error) : list error :=
  match path with
  | [] => []
  | e :: path' =>
      if existsb isJoin (e :: path') then afterLastJoin path' else e :: path'
  end.

(** The message the loop of [errorEntry] arrives at: the first
    non-empty text after the last joined node. *)
Definition code_message (path : list error) : string :=
  firstNonEmpty (map errorText (afterLastJoin path)).

(** The message after the loop has run over [path] from message [m]. *)
Definition messageFrom (m : string) (path : list error) : string :=
  fold_left (fun m err => if isJoin err then ""
                          else if decide (m = "") then errorText err else m)
            path m.
End fields.

(** The binary of an [*internal.Error] as [errorEntry] appends it to the
    stack: nothing for the empty one. *)
Definition binaryList (je : InternalError) : list string :=
  if decide (ieBinary je = "") then [] else [ieBinary je].

(** *** Error values without children, for examples: a text and, when
    the value is an [*internal.Error], its fields. None is joined, each
    is its own single path. *)
Record plainError := mkPlainError {
  plainText : string;
  plainInternal : option InternalError
}.

Definition plainErrors : Errors := {|
  error := plainError;
  errorText := plainText;
  isJoin := fun _ => false;
  asInternal := plainInternal;
  Flatten := fun e => [[e]];
  GetCodes := fun e =>
    match e with
    | Some (mkPlainError _ (Some ie)) =>
        if decide (ieCode ie = "") then [] else [ieCode ie]
    | _ => []
    end;
  errorsNew := fun msg => mkPlainError msg (Some (mkInternalError "" "" "" [] []))
|}.

(** *** A sort for examples: insertion sort with [less]. *)
Fixpoint insertBy (less : KeyValue -> KeyValue -> bool) (x : KeyValue)
    (l : list KeyValue) : list KeyValue :=
  match l with
  | [] => [x]
  | y :: l' => if less x y then x :: y :: l' else y :: insertBy less x l'
  end.

Definition insertionSort (less : KeyValue -> KeyValue -> bool)
    (l : list KeyValue) : list KeyValue :=
  fold_right (insertBy less) [] l.

(** A runtime whose context is the list of its key/value pairs. *)
Definition listRuntime : Runtime := {|
  context := list KeyValue;
  ContextKeyValues := fun ctx => ctx;
  Caller := fun _ => "main.go:42";
  Now := 0%Z;
  sort_Slice := insertionSort
|}.

Section logger.
Context `{Runtime} `{Errors}.

(** The package's [logger] is seen through the entries handed to
    [logger.Log], oldest first. *)
Definition Log (ctx : context) (e : Entry) (logged : list Entry) : list Entry :=
  logged ++ [e].

Definition Debug (ctx : context) (msg : string) (opts : list Option)
    (logged : list Entry) : list Entry :=
  Log ctx (makeEntry ctx msg LevelDebug opts) logged.

Definition Info (ctx : context) (msg : string) (opts : list Option)
    (logged : list Entry) : list Entry :=
  Log ctx (makeEntry ctx msg LevelInfo opts) logged.

(** The error that [Error] puts in the place of [nil]. *)
Definition nilSentinel : error :=
  errorsNew "nil error logged - this is probably a bug".

Definition Error (ctx : context) (err : option error) (opts : list Option)
    (logged : list Entry) : list Entry :=
  let err := match err with
             | None => errorsNew "nil error logged - this is probably a bug"
             | Some e => e
             end in
  let opts := opts ++ [WithError (Some err)] in
  let e := makeEntry ctx (errorText err) LevelError opts in
  Log ctx e logged.
End logger.

End log.

(** ** Concrete values for the examples *)
Module examples.
Import models jettison internal errors.

(** A call site in binary [bin] where the stack capture gives [frames]. *)
Definition site (bin : string) (frames : list string) : CallSite :=
  mkCallSite bin (mkHop bin None [])
             (fun msg => mkError "" msg "main.go:10" [])
             (fun _ => Some frames).

Definition siteA : CallSite := site "svc-a" ["main.run"; "main.main"].
Definition siteB : CallSite := site "svc-a" ["main.retry"; "main.main"].

(** A chain whose current hop has no segment and no trace yet, as in
    [&JettisonError{Hops: []models.Hop{{Binary: "svc-a"}}}]. *)
Definition emptyHopChain : error :=
  Jettison "remote" None zeroMetadata [mkHop "svc-a" None []] None.

(** The same call sites for the model with the store. *)
Definition heapSite (bin : string) (frames : list string) : heap.CallSite :=
  heap.mkCallSite bin (heap.mkHop bin None None)
                  (fun msg => mkError "" msg "main.go:10" [])
                  (fun _ => Some frames).

Definition heapSiteA : heap.CallSite := heapSite "svc-a" ["main.run"; "main.main"].
Definition heapSiteB : heap.CallSite := heapSite "svc-a" ["main.retry"; "main.main"].

Definition emptyStore : heap.store := heap.mkStore ∅ ∅ ∅.

(** The store after [e1 := New("a", WithCode("X"))] in the empty store,
    and the reference [e1]. *)
Definition storeE1 : heap.store :=
  match heap.New heapSiteA "a" [WithCode "X"] emptyStore with
  | inr (_, s) => s
  | inl _ => emptyStore
  end.

Definition ptrE1 : positive :=
  match heap.New heapSiteA "a" [WithCode "X"] emptyStore with
  | inr (Some p, _) => p
  | _ => 1%positive
  end.

End examples.

(** ** The two models of package errors, side by side *)
Module agreement.

(** A hop value as a caller sees it through the store. *)
Definition hopView (h : models.Hop) : heap.HopView :=
  heap.mkHopView (models.Binary h) (models.StackTrace h) (models.Errors h).

(** A chain value as a caller sees it through the store; the references
    to the wrapped and to the original error are the store's. *)
Definition chainView (e : errors.error) (wrapped original : heap.error)
    : heap.ChainView :=
  heap.mkChainView (errors.message e) wrapped
    (hopView (models.Trace (errors.metadata e)))
    (models.MetaCode (errors.metadata e))
    (map hopView (errors.Hops e)) original.

(** The metadata of [Wrap] as a value; its trace has no segments. *)
Definition metadataOf (md : heap.Metadata) : models.Metadata :=
  models.mkMetadata
    (models.mkHop (heap.Binary (heap.Trace md)) (heap.StackTrace (heap.Trace md)) [])
    (heap.MetaCode md).

(** The two records describe the same call site. [NewHop] is left out:
    [Wrap] of a chain value does not call it. *)
Definition sameSite (hc : heap.CallSite) (c : internal.CallSite) : Prop :=
  heap.binaryName hc = internal.binaryName c /\
  (forall msg, heap.NewError hc msg = internal.NewError c msg) /\
  (forall skip, heap.GetStackTrace hc skip = internal.GetStackTrace c skip).

(** The hop [h], with its segments in the array at [b], is the hop
    value [ph]. *)
Definition hopAt (s : heap.store) (h : heap.Hop) (b : positive) (ph : models.Hop)
    : Prop :=
  heap.Errors h = Some b /\
  heap.errorArrays s !! b = Some (models.Errors ph) /\
  heap.Binary h = models.Binary ph /\
  heap.StackTrace h = models.StackTrace ph.

End agreement.

(** ** package errors: the queries and what the options leave *)
Module errors_api.
Import models jettison internal errors.

(** [OriginalError]: the [OriginalErr] field of a [*JettisonError], nil
    for nil and for every other error. *)
Definition OriginalError (err : option error) : option error :=
  match err with
  | Some (Jettison _ _ _ _ orig) => orig
  | _ => None
  end.

Section IsAny.
(** [Is] is the standard library's [errors.Is], which [errors.go] only
    renames. *)
Variable Is : option error -> option error -> bool.

(** [for _, target := range targets { if Is(err, target) { return true } }
    return false] *)
Fixpoint IsAny (err : option error) (targets : list (option error)) : bool :=
  match targets with
  | [] => false
  | target :: targets' => if Is err target then true else IsAny err targets'
  end.
End IsAny.

(** The list [GetCodes] appends for one code: nothing for the empty one. *)
Definition codeList (code : string) : list string :=
  if decide (code = "") then [] else [code].

(** The binary that a list of options leaves on a hop that had [b0]. *)
Definition lastBinary (ol : list Option) (b0 : string) : string :=
  fold_left (fun b o => match o with WithBinary bin => bin | _ => b end) ol b0.

Definition isWithoutStackTrace (o : Option) : bool :=
  match o with WithoutStackTrace => true | _ => false end.

(** The segment that [New] and [Wrap] put in front, after the options:
    [internal.NewError(msg)] with the code of the last [WithCode]. *)
Definition newSegment (c : CallSite) (msg : string) (ol : list Option) : Error :=
  setCode (lastCode ol (Code (NewError c msg))) (NewError c msg).

(** The [Error()] text of a foreign error (the code asks it of no
    chain value). *)
Definition foreignText (e : error) : string :=
  match e with
  | Leaf t | Single t _ | Joined t _ => t
  | Jettison _ _ _ _ _ => ""
  end.

End errors_api.

(** ** More concrete values *)
Module examples_more.

(** A store that holds one foreign error, a plain one with the text
    ["timeout"], and the reference to it. *)
Definition foreignStore : heap.store :=
  heap.mkStore {[ 1%positive := heap.Foreign "timeout" heap.NoUnwrap ]} ∅ ∅.

Definition foreignPtr : positive := 1%positive.

End examples_more.

(** * Properties *)

(** ** Options *)
Module option_facts.
Import models jettison.

Lemma applyAll_split ol : forall h md,
  applyAll ol h md = (applyHops ol h, applyMetadatas ol md).
Proof. induction ol as [|o ol IH]; intros h md; simpl; [done|apply IH]. Qed.

Lemma applyHops_cons o ol h : applyHops (o :: ol) h = applyHops ol (ApplyHop o h).
Proof. done. Qed.

Lemma applyHops_app ol1 ol2 h :
  applyHops (ol1 ++ ol2) h = applyHops ol2 (applyHops ol1 h).
Proof. apply fold_left_app. Qed.

Lemma applyMetadatas_app ol1 ol2 md :
  applyMetadatas (ol1 ++ ol2) md = applyMetadatas ol2 (applyMetadatas ol1 md).
Proof. apply fold_left_app. Qed.

Lemma ApplyHop_length o h : length (Errors (ApplyHop o h)) = length (Errors h).
Proof.
  destruct o; simpl; try done.
  - destruct (Errors h) eqn:E; simpl; [by rewrite E|done].
  - by destruct (length (Errors h) <=? 1)%nat.
Qed.

Lemma applyHops_length ol : forall h,
  length (Errors (applyHops ol h)) = length (Errors h).
Proof.
  induction ol as [|o ol IH]; intros h; [done|].
  by rewrite applyHops_cons, IH, ApplyHop_length.
Qed.

(** No option gives a hop a stack trace. *)
Lemma ApplyHop_trace_none o h : StackTrace h = None -> StackTrace (ApplyHop o h) = None.
Proof.
  intros E. destruct o; simpl; try done.
  - by destruct (Errors h).
  - by destruct (length (Errors h) <=? 1)%nat.
Qed.

Lemma applyHops_trace_none ol : forall h,
  StackTrace h = None -> StackTrace (applyHops ol h) = None.
Proof.
  induction ol as [|o ol IH]; intros h E; [done|].
  rewrite applyHops_cons. apply IH. by apply ApplyHop_trace_none.
Qed.

(** With two segments or more, every option leaves the trace alone. *)
Lemma ApplyHop_trace_keep o h :
  2 <= length (Errors h) -> StackTrace (ApplyHop o h) = StackTrace h.
Proof.
  intros L. destruct o; simpl; try done.
  - by destruct (Errors h).
  - destruct (Nat.leb_spec (length (Errors h)) 1); [lia|done].
Qed.

Lemma applyHops_trace_keep ol : forall h,
  2 <= length (Errors h) -> StackTrace (applyHops ol h) = StackTrace h.
Proof.
  induction ol as [|o ol IH]; intros h L; [done|].
  rewrite applyHops_cons, IH by (by rewrite ApplyHop_length).
  by apply ApplyHop_trace_keep.
Qed.

(** [WithoutStackTrace] on a hop of two segments or more is the identity. *)
Lemma WithoutStackTrace_noop h :
  2 <= length (Errors h) -> ApplyHop WithoutStackTrace h = h.
Proof.
  intros L. simpl. destruct (Nat.leb_spec (length (Errors h)) 1); [lia|done].
Qed.

Lemma WithoutStackTrace_clear h :
  length (Errors h) <= 1 -> ApplyHop WithoutStackTrace h = setStackTrace None h.
Proof.
  intros L. simpl. destruct (Nat.leb_spec (length (Errors h)) 1); [done|lia].
Qed.

(** Clearing the trace commutes with every option. *)
Lemma ApplyHop_clear_comm o h :
  ApplyHop o (setStackTrace None h) = setStackTrace None (ApplyHop o h).
Proof.
  destruct o; simpl; try done.
  - by destruct (Errors h).
  - by destruct (length (Errors h) <=? 1)%nat.
Qed.

Lemma applyHops_clear_comm ol : forall h,
  applyHops ol (setStackTrace None h) = setStackTrace None (applyHops ol h).
Proof.
  induction ol as [|o ol IH]; intros h; [done|].
  by rewrite !applyHops_cons, ApplyHop_clear_comm, IH.
Qed.

(** The effect of one [WithoutStackTrace] anywhere in the option list. *)
Lemma applyHops_WithoutStackTrace ol1 ol2 h :
  applyHops (ol1 ++ WithoutStackTrace :: ol2) h =
    if (length (Errors h) <=? 1)%nat
    then setStackTrace None (applyHops (ol1 ++ ol2) h)
    else applyHops (ol1 ++ ol2) h.
Proof.
  rewrite !applyHops_app, applyHops_cons.
  destruct (Nat.leb_spec (length (Errors h)) 1) as [L|L].
  - rewrite WithoutStackTrace_clear by (by rewrite applyHops_length).
    apply applyHops_clear_comm.
  - rewrite WithoutStackTrace_noop; [done|]. rewrite applyHops_length. lia.
Qed.

Lemma ApplyMetadata_code o md :
  MetaCode (ApplyMetadata o md) = match o with WithCode c => c | _ => MetaCode md end.
Proof. by destruct o. Qed.

Lemma applyMetadatas_code ol : forall md,
  MetaCode (applyMetadatas ol md) = lastCode ol (MetaCode md).
Proof.
  induction ol as [|o ol IH]; intros md; [done|].
  unfold applyMetadatas, lastCode in *. simpl. rewrite IH.
  by rewrite ApplyMetadata_code.
Qed.

(** Options that name no binary leave an empty metadata binary empty. *)
Lemma applyMetadatas_binary ol : forall md,
  forallb (fun o => negb (namesBinary o)) ol = true ->
  Binary (Trace md) = "" ->
  Binary (Trace (applyMetadatas ol md)) = "".
Proof.
  induction ol as [|o ol IH]; intros md Hol Hb; [done|].
  simpl in Hol. apply andb_prop in Hol as [Ho Hol].
  unfold applyMetadatas in *. simpl. apply IH; [done|].
  destruct o as [bin| |]; simpl in *; try done.
  by destruct (decide (bin = "")).
Qed.

End option_facts.

(** ** package errors *)
Module errors_facts.
Import models jettison internal errors option_facts.

(** [hasTrace] as the loop of the source: test the chain value, else
    step through [Unwrap] when the value is an [unwrapper]. *)
Lemma hasTrace_loop e :
  hasTrace e =
    if isJettison e && negb (bool_decide (Binary (Trace (metadata e)) = ""))
    then (Trace (metadata e), true)
    else match unwrapper e with
         | Some next => hasTraceErr next
         | None => (zeroHop, false)
         end.
Proof.
  destruct e as [t|t [n|]|t cs|m [w|] md hs o]; simpl; try done;
    case_decide; case_bool_decide; done.
Qed.

Lemma Wrap_unfold c e msg ol :
  Wrap c (Some e) msg ol =
    match fst (wrapTarget c e) with
    | [] => Panic
    | h0 :: rest =>
        Return (Some (Jettison msg (Some e)
                        (applyMetadatas ol (freshMetadata c (snd (hasTrace e))))
                        (applyHops ol (readyHop c msg h0) :: rest)
                        (snd (wrapTarget c e))))
    end.
Proof.
  unfold Wrap. destruct (wrapTarget c e) as [[|h0 rest] orig]; simpl; [done|].
  rewrite applyAll_split. unfold readyHop, freshMetadata.
  by destruct (snd (hasTrace e)), (StackTrace h0).
Qed.



Lemma readyHop_length c msg h0 : length (Errors (readyHop c msg h0)) = S (length (Errors h0)).
Proof. unfold readyHop. by destruct (StackTrace h0). Qed.

Lemma readyHop_trace c msg h0 :
  StackTrace (readyHop c msg h0) =
    match StackTrace h0 with Some t => Some t | None => GetStackTrace c 2 end.
Proof. unfold readyHop. destruct (StackTrace h0) eqn:E; simpl; by rewrite ?E. Qed.

(** The metadata of the chain that [Wrap] returns. *)
Lemma Wrap_metadata c e msg ol e' :
  Wrap c (Some e) msg ol = Return (Some e') ->
  metadata e' = applyMetadatas ol (freshMetadata c (snd (hasTrace e)))
  /\ wrapped e' = Some e.
Proof.
  rewrite Wrap_unfold. destruct (fst (wrapTarget c e)); [done|].
  intros [= <-]. done.
Qed.






(** *** Wrap of nil *)

(** C6. [Wrap(nil, msg, opts...)] returns nil, whatever the call site,
    the message and the options. *)
Theorem Wrap_nil (c : CallSite) (msg : string) (ol : list Option) :
  Wrap c None msg ol = Return None.
Proof. reflexivity. Qed.

(** *** GetCodes *)


(** A wrap with a non-empty code puts that code in front of the codes of
    the chain it wraps. *)
Lemma GetCodes_Wrap_code c e msg code e' :
  isJettison e = true -> code <> "" ->
  Wrap c (Some e) msg [WithCode code] = Return (Some e') ->
  GetCodes (Some e') = code :: GetCodes (Some e).
Proof.
  intros HJ Hc. destruct e as [| | |m w md hs o]; try done.
  rewrite Wrap_unfold. simpl. destruct hs as [|h0 rest]; [done|].
  intros [= <-]. simpl. by destruct (decide (code = "")).
Qed.


(** *** The stack trace of the current hop *)

(** [Wrap] of any chain value that has a trace on its current hop: the
    trace afterwards is that same trace, or none when the options cleared
    it; the capture of the call site never replaces it. *)
Lemma Wrap_no_recapture c m w md h rest o msg ol e' t :
  StackTrace h = Some t ->
  Wrap c (Some (Jettison m w md (h :: rest) o)) msg ol = Return (Some e') ->
  hopTrace e' = Some t \/ hopTrace e' = None.
Proof.
  intros Ht. rewrite Wrap_unfold. simpl. intros [= <-]. unfold hopTrace. simpl.
  assert (Hready : StackTrace (readyHop c msg h) = Some t)
    by (by rewrite readyHop_trace, Ht).
  revert Hready. generalize (readyHop c msg h). clear.
  induction ol as [|o ol IH]; intros h0 H0; [by left|].
  rewrite applyHops_cons.
  destruct o as [bin|code|]; simpl.
  - by apply IH.
  - destruct (Errors h0); by apply IH.
  - destruct (length (Errors h0) <=? 1)%nat; [|by apply IH].
    right. by apply applyHops_trace_none.
Qed.





(** *** WithoutStackTrace *)

Lemma New_unfold c msg ol :
  New c msg ol =
    Jettison msg None (applyMetadatas ol (newMetadata c))
      [applyHops ol (setErrors [NewError c msg]
                       (setStackTrace (GetStackTrace c 2) (NewHop c)))] None.
Proof. unfold New. by rewrite applyAll_split. Qed.

(** During a [Wrap] of a chain whose current hop has no segment yet, the
    hop has one segment when the options run, and [WithoutStackTrace]
    clears the trace that the same call captured. *)
Lemma WithoutStackTrace_in_Wrap_counterexample :
  wrapHops examples.siteA examples.emptyHopChain "m" [WithoutStackTrace]
    = Return [mkHop "svc-a" None [mkError "" "m" "main.go:10" []]] /\
  wrapHops examples.siteA examples.emptyHopChain "m" []
    = Return [mkHop "svc-a" (Some ["main.run"; "main.main"])
                    [mkError "" "m" "main.go:10" []]] /\
  wrapHops examples.siteA examples.emptyHopChain "m" [WithoutStackTrace]
    <> wrapHops examples.siteA examples.emptyHopChain "m" [].
Proof. repeat split; try reflexivity. discriminate. Qed.

(** C5 (amended). [WithoutStackTrace] on a hop clears the trace exactly
    when the hop has at most one segment. In the options of [New] it
    leaves the new chain's hop without a trace. In the options of a
    [Wrap] it changes nothing in the hops when the wrapped error is
    foreign or is a chain whose current hop has a segment already (two
    segments or more after the prepend); when the current hop has no
    segment before the call, it clears the current hop's trace. *)
Theorem WithoutStackTrace_first_error_only (c : CallSite) (h : Hop) (e : error)
    (msg : string) (ol1 ol2 : list Option) :
  ApplyHop WithoutStackTrace h =
    (if (length (Errors h) <=? 1)%nat then setStackTrace None h else h)
  /\ hopTrace (New c msg (ol1 ++ WithoutStackTrace :: ol2)) = None
  /\ wrapHops c e msg (ol1 ++ WithoutStackTrace :: ol2) =
       if (1 <=? segmentsBefore e)%nat
       then wrapHops c e msg (ol1 ++ ol2)
       else clearCurrentTrace (wrapHops c e msg (ol1 ++ ol2)).
Proof.
  split; [done|]. split.
  - rewrite New_unfold. unfold hopTrace. simpl.
    by rewrite applyHops_WithoutStackTrace.
  - unfold wrapHops. rewrite !Wrap_unfold.
    destruct e as [t|t n|t cs|m w md [|h0 rest] o]; simpl; try done;
      rewrite applyHops_WithoutStackTrace, readyHop_length; simpl; try done.
    destruct (Errors h0) as [|e0 es]; simpl; done.
Qed.

(** *** The metadata trace *)


Lemma hasTrace_Wrap c e msg ol e' :
  Wrap c (Some e) msg ol = Return (Some e') ->
  hasTrace e' =
    if decide (Binary (Trace (metadata e')) = "") then hasTrace e
    else (Trace (metadata e'), true).
Proof.
  rewrite Wrap_unfold. destruct (fst (wrapTarget c e)); [done|].
  intros [= <-]. done.
Qed.

(** Once a chain has a trace owner, every later [Wrap] finds one. *)
Lemma hasTrace_found_Wrap c e msg ol e' :
  Wrap c (Some e) msg ol = Return (Some e') ->
  snd (hasTrace e) = true -> snd (hasTrace e') = true.
Proof.
  intros HW Hf. rewrite (hasTrace_Wrap _ _ _ _ _ HW). by case_decide.
Qed.

Lemma hasTrace_found_WrapAll calls : forall e e',
  WrapAll e calls = Return (Some e') ->
  snd (hasTrace e) = true -> snd (hasTrace e') = true.
Proof.
  induction calls as [|[[c msg] ol] calls IH]; intros e e'.
  - by intros [= <-].
  - cbn [WrapAll]. destruct (Wrap c (Some e) msg ol) as [[e1|]|] eqn:HW; try done.
    intros HWs Hf. apply (IH e1 e' HWs). by eapply hasTrace_found_Wrap.
Qed.



(** C10. [Wrap] of a chain value puts a newly computed metadata on the
    chain it returns: the fresh one of the call with the call's options
    applied. Its code is the last one the options set, empty without
    one; the metadata of the wrapped chain counts only through the test
    of [hasTrace] on its binary, so a code or a trace held there does
    not reach the returned chain's own metadata. *)
Theorem Wrap_replaces_metadata (c : CallSite) (m : string) (w : option error)
    (md : Metadata) (hs : list Hop) (o : option error) (msg : string)
    (ol : list Option) (e' : error) :
  Wrap c (Some (Jettison m w md hs o)) msg ol = Return (Some e') ->
  metadata e' =
    applyMetadatas ol (freshMetadata c (snd (hasTrace (Jettison m w md hs o))))
  /\ MetaCode (metadata e') = lastCode ol ""
  /\ (Binary (Trace md) <> "" -> metadata e' = applyMetadatas ol zeroMetadata)
  /\ (forall md2,
        (Binary (Trace md2) = "" <-> Binary (Trace md) = "") ->
        exists e2,
          Wrap c (Some (Jettison m w md2 hs o)) msg ol = Return (Some e2) /\
          metadata e2 = metadata e').
Proof.
  intros HW. destruct (Wrap_metadata _ _ _ _ _ HW) as [Hmd _].
  split; [done|]. split; [|split].
  - rewrite Hmd, applyMetadatas_code. unfold freshMetadata.
    by destruct (snd _).
  - intros Hb. rewrite Hmd. simpl. by case_decide.
  - intros md2 Hiff. revert HW. rewrite !Wrap_unfold. simpl.
    destruct hs as [|h0 rest]; [done|]. intros [= <-].
    eexists. split; [reflexivity|]. simpl.
    do 2 case_decide; try done; tauto.
Qed.

(** An instance: the code [E_OLD] of the wrapped chain is gone. *)
Lemma Wrap_replaces_metadata_witness :
  exists e',
    Wrap examples.siteB
         (Some (Jettison "a" None (mkMetadata (mkHop "svc-a" None []) "E_OLD")
                         [mkHop "svc-a" None [mkError "" "a" "" []]] None))
         "b" [] = Return (Some e') /\
    metadata e' = zeroMetadata.
Proof.
  eexists. split; [reflexivity|].
  refine (proj1 (proj2 (proj2 (Wrap_replaces_metadata examples.siteB "a" None
            (mkMetadata (mkHop "svc-a" None []) "E_OLD")
            [mkHop "svc-a" None [mkError "" "a" "" []]] None "b" [] _ eq_refl))) _).
  discriminate.
Defined.

End errors_facts.

(** ** package log *)
Module log_facts.
Import models(KeyValue, mkKeyValue, Key, Value).
Import log.

(** *** errorEntry *)
Section errorEntry.
Context `{Errors}.

Ltac decide_cases :=
  repeat (match goal with
          | |- context [decide (?x = "")] =>
              lazymatch x with
              | context [@decide _ _] => fail
              | _ => destruct (decide (x = "")); simpl
              end
          end);
  try done; try congruence.

Lemma errorStep_message e m err :
  eoMessage (fst (errorStep (e, m) err)) =
    if isJoin err then ""
    else if decide (eoMessage e = "") then errorText err else eoMessage e.
Proof. unfold errorStep. by destruct (asInternal err). Qed.

Lemma errorStep_code e m err :
  eoCode (fst (errorStep (e, m) err)) =
    match asInternal err with
    | Some je => if decide (eoCode e = "") then ieCode je else eoCode e
    | None => eoCode e
    end.
Proof. unfold errorStep. by destruct (asInternal err). Qed.

Lemma errorStep_source e m err :
  eoSource (fst (errorStep (e, m) err)) =
    match asInternal err with
    | Some je => if decide (ieSource je = "") then eoSource e else ieSource je
    | None => eoSource e
    end.
Proof. unfold errorStep. by destruct (asInternal err). Qed.

Lemma messageFrom_cons m err path :
  messageFrom m (err :: path) =
    messageFrom (if isJoin err then ""
                 else if decide (m = "") then errorText err else m) path.
Proof. done. Qed.

Lemma fold_errorStep_message path : forall e m,
  eoMessage (fst (fold_left errorStep path (e, m))) = messageFrom (eoMessage e) path.
Proof.
  induction path as [|err path IH]; intros e m; [done|].
  cbn [fold_left]. pose proof (errorStep_message e m err) as Hs.
  destruct (errorStep (e, m) err) as [e1 m1]. rewrite IH, messageFrom_cons.
  cbn [fst] in Hs. by rewrite Hs.
Qed.

Lemma fold_errorStep_code path : forall e m,
  eoCode (fst (fold_left errorStep path (e, m))) =
    if decide (eoCode e = "") then spec_code path else eoCode e.
Proof.
  induction path as [|err path IH]; intros e m.
  - simpl. by case_decide.
  - cbn [fold_left]. pose proof (errorStep_code e m err) as Hs.
    destruct (errorStep (e, m) err) as [e1 m1]. rewrite IH.
    cbn [fst] in Hs. rewrite Hs. unfold spec_code, internals. simpl.
    destruct (asInternal err) as [je|]; simpl; [|done].
    decide_cases.
Qed.

Lemma fold_errorStep_source path : forall e m,
  eoSource (fst (fold_left errorStep path (e, m))) =
    if decide (spec_source path = "") then eoSource e else spec_source path.
Proof.
  induction path as [|err path IH]; intros e m; [done|].
  cbn [fold_left]. pose proof (errorStep_source e m err) as Hs.
  destruct (errorStep (e, m) err) as [e1 m1]. rewrite IH.
  cbn [fst] in Hs. rewrite Hs. unfold spec_source, internals. simpl.
  destruct (asInternal err) as [je|]; simpl; [|done].
  decide_cases.
Qed.

Lemma afterLastJoin_no_join path :
  existsb isJoin path = false -> afterLastJoin path = path.
Proof. destruct path as [|e path]; [done|]. simpl. by intros ->. Qed.

Lemma messageFrom_spec path : forall m,
  messageFrom m path =
    if existsb isJoin path then code_message path
    else if decide (m = "") then code_message path else m.
Proof.
  induction path as [|err path IH]; intros m.
  - simpl. by case_decide.
  - rewrite messageFrom_cons, IH. unfold code_message.
    cbn [afterLastJoin existsb]. destruct (isJoin err) eqn:Ej; simpl.
    + by destruct (existsb isJoin path).
    + destruct (existsb isJoin path) eqn:Ep; [done|].
      rewrite (afterLastJoin_no_join path Ep). simpl.
      decide_cases.
Qed.

Lemma errorEntry_cons err path :
  errorEntry (err :: path) =
    let r := fold_left errorStep (err :: path) (zeroErrorObject, []) in
    mkErrorObject (eoMessage (fst r)) (eoCode (fst r)) (eoSource (fst r))
                  (eoStack (fst r)) (MakeElastic (Merge_FullTrace (snd r)))
                  (eoParameters (fst r)).
Proof.
  unfold errorEntry.
  by destruct (fold_left errorStep (err :: path) (zeroErrorObject, [])).
Qed.

(** C3 (amended). The error object built from a path has: as message,
    the first non-empty [Error()] text among the nodes that follow the
    last joined node of the path (among all nodes when none is
    joined); as code, the first non-empty code walking outer to inner;
    as source, the last non-empty source along the path. *)
Theorem errorEntry_fields (path : list error) :
  eoMessage (errorEntry path) = code_message path /\
  eoCode (errorEntry path) = spec_code path /\
  eoSource (errorEntry path) = spec_source path.
Proof.
  destruct path as [|err path]; [done|].
  rewrite errorEntry_cons. cbn [eoMessage eoCode eoSource]. split; [|split].
  - etrans; [apply fold_errorStep_message|].
    change (eoMessage zeroErrorObject) with "". rewrite messageFrom_spec.
    destruct (existsb isJoin (err :: path)); [done|].
    by rewrite decide_True.
  - etrans; [apply fold_errorStep_code|].
    change (eoCode zeroErrorObject) with "". by rewrite decide_True.
  - etrans; [apply fold_errorStep_source|].
    change (eoSource zeroErrorObject) with "". by case_decide.
Qed.
End errorEntry.

(** On a path of two errors, neither joined, the message is the text of
    the outer one; the last non-joined node is the inner one. *)
Lemma errorEntry_message_counterexample :
  eoMessage (errorEntry (H := plainErrors)
               [mkPlainError "load user: timeout" None; mkPlainError "timeout" None])
    = "load user: timeout" /\
  spec_message (H := plainErrors)
    [mkPlainError "load user: timeout" None; mkPlainError "timeout" None]
    = "timeout" /\
  eoMessage (errorEntry (H := plainErrors)
               [mkPlainError "load user: timeout" None; mkPlainError "timeout" None])
    <> spec_message (H := plainErrors)
         [mkPlainError "load user: timeout" None; mkPlainError "timeout" None].
Proof. repeat split; try reflexivity. discriminate. Qed.


(** *** The order of keys *)

Lemma ltb_lt a b : String.ltb a b = true <-> String_as_OT.lt a b.
Proof.
  unfold String.ltb. rewrite <- String_as_OT.cmp_lt. unfold String_as_OT.cmp.
  destruct (String.compare a b); split; congruence.
Qed.

Lemma ltb_irrefl a : String.ltb a a = false.
Proof.
  pose proof (proj2 (String_as_OT.cmp_eq a a) eq_refl) as E.
  unfold String_as_OT.cmp in E. unfold String.ltb. by rewrite E.
Qed.

Lemma ltb_trans a b c :
  String.ltb a b = true -> String.ltb b c = true -> String.ltb a c = true.
Proof. rewrite !ltb_lt. apply String_as_OT.lt_trans. Qed.

(** [b < a] fails exactly when [a <= b]. *)
Lemma ltb_false_leb a b : String.ltb b a = false <-> String.leb a b = true.
Proof.
  unfold String.ltb, String.leb. rewrite (String.compare_antisym a b).
  destruct (String.compare b a); simpl; split; congruence.
Qed.

Lemma ltb_false_cases a b : String.ltb a b = false -> a = b \/ String.ltb b a = true.
Proof.
  unfold String.ltb. rewrite (String.compare_antisym b a).
  destruct (String.compare a b) eqn:E; simpl; try done; auto.
  left. by apply String_as_OT.cmp_eq.
Qed.

Lemma ltb_asym a b : String.ltb a b = true -> String.ltb b a = false.
Proof.
  intros Hab. destruct (String.ltb b a) eqn:Hba; [|done].
  pose proof (ltb_trans _ _ _ Hab Hba) as Haa. by rewrite ltb_irrefl in Haa.
Qed.

Lemma ltb_negtrans a b c :
  String.ltb a b = false -> String.ltb b c = false -> String.ltb a c = false.
Proof.
  intros Hab Hbc.
  destruct (ltb_false_cases _ _ Hab) as [->|Hba]; [done|].
  destruct (ltb_false_cases _ _ Hbc) as [<-|Hcb]; [done|].
  apply ltb_asym. by apply ltb_trans with b.
Qed.

Lemma keyLess_irrefl a : keyLess a a = false.
Proof. apply ltb_irrefl. Qed.
Lemma keyLess_trans a b c :
  keyLess a b = true -> keyLess b c = true -> keyLess a c = true.
Proof. apply ltb_trans. Qed.
Lemma keyLess_negtrans a b c :
  keyLess a b = false -> keyLess b c = false -> keyLess a c = false.
Proof. apply ltb_negtrans. Qed.

Lemma sorted_by_keysAscending l : sorted_by keyLess l -> keysAscending l.
Proof.
  unfold sorted_by, keysAscending. induction 1 as [|a l Hl IH Ha]; constructor; [done|].
  eapply Forall_impl; [exact Ha|]. intros b Hb. by apply ltb_false_leb.
Qed.

(** *** makeEntry *)
Section makeEntry.
Context {R : Runtime} {contract : SortContract (H := R)}.

(** C9. The parameters of the entry that [makeEntry] returns are
    sorted by key, and they are the parameters left by the options
    (those the options supply and those of the error paths) followed
    by the context's, rearranged. *)
Theorem makeEntry_parameters_sorted (ctx : context) (msg : string) (lvl : Level)
    (opts : list Option) :
  keysAscending (Parameters (makeEntry ctx msg lvl opts)) /\
  Permutation
    (Parameters (fold_left (fun l (o : Option) => o l) opts (newEntry msg lvl 3))
       ++ ContextKeyValues ctx)
    (Parameters (makeEntry ctx msg lvl opts)).
Proof.
  unfold makeEntry. cbn [Parameters setParameters]. split.
  - apply sorted_by_keysAscending, sort_Slice_sorted;
      [apply keyLess_irrefl|apply keyLess_trans|apply keyLess_negtrans].
  - apply sort_Slice_perm.
Qed.
End makeEntry.

(** Insertion sort meets the contract of [sort.Slice]. *)
Section insertionSort.
Variable less : KeyValue -> KeyValue -> bool.

Lemma insertBy_perm x l : Permutation (x :: l) (insertBy less x l).
Proof.
  induction l as [|y l IH]; simpl; [done|].
  destruct (less x y); [done|].
  rewrite perm_swap. by constructor.
Qed.

Lemma insertionSort_perm l : Permutation l (insertionSort less l).
Proof.
  induction l as [|x l IH]; simpl; [done|].
  rewrite <- insertBy_perm. by constructor.
Qed.

Hypothesis less_irrefl : forall a, less a a = false.
Hypothesis less_trans : forall a b c,
  less a b = true -> less b c = true -> less a c = true.
Hypothesis less_negtrans : forall a b c,
  less a b = false -> less b c = false -> less a c = false.

Lemma insertBy_sorted x l : sorted_by less l -> sorted_by less (insertBy less x l).
Proof.
  unfold sorted_by. induction 1 as [|y l Hl IH Hy]; simpl.
  - repeat constructor.
  - destruct (less x y) eqn:Hxy.
    + assert (Hyx : less y x = false).
      { destruct (less y x) eqn:Hyx; [|done].
        pose proof (less_trans _ _ _ Hxy Hyx) as Hxx.
        by rewrite less_irrefl in Hxx. }
      constructor; [by constructor|]. constructor; [done|].
      eapply Forall_impl; [exact Hy|]. intros z Hz. simpl in Hz.
      by apply less_negtrans with y.
    + constructor; [done|].
      apply (Permutation_Forall (insertBy_perm x l)). by constructor.
Qed.

Lemma insertionSort_sorted l : sorted_by less (insertionSort less l).
Proof.
  induction l as [|x l IH]; simpl; [constructor|]. by apply insertBy_sorted.
Qed.
End insertionSort.

Lemma listRuntime_contract : SortContract (H := listRuntime).
Proof.
  split.
  - intros less l. apply insertionSort_perm.
  - intros less l Hi Ht Hn. by apply insertionSort_sorted.
Qed.

(** An instance: one option parameter and two context parameters. *)
Lemma makeEntry_parameters_sorted_witness :
  keysAscending
    (Parameters (makeEntry (H := listRuntime)
                   [mkKeyValue "user" "7"; mkKeyValue "attempt" "2"]
                   "op failed" LevelError
                   [fun e => setParameters (Parameters e ++ [mkKeyValue "hops" "3"]) e])).
Proof.
  exact (proj1 (makeEntry_parameters_sorted (R := listRuntime)
                  (contract := listRuntime_contract)
                  [mkKeyValue "user" "7"; mkKeyValue "attempt" "2"]
                  "op failed" LevelError
                  [fun e => setParameters (Parameters e ++ [mkKeyValue "hops" "3"]) e])).
Defined.

(** *** Error *)
Section Error.
Context `{Runtime} `{Errors}.

(** The error part of an entry is the one its last option leaves. *)
Lemma makeEntry_last_option (ctx : context) (msg : string) (lvl : Level)
    (opts : list Option) (o : Option) :
  let e0 := fold_left (fun l (o : Option) => o l) opts (newEntry msg lvl 3) in
  ErrorCode (makeEntry ctx msg lvl (opts ++ [o])) = ErrorCode (o e0) /\
  EntryErrorObject (makeEntry ctx msg lvl (opts ++ [o])) = EntryErrorObject (o e0) /\
  ErrorObjects (makeEntry ctx msg lvl (opts ++ [o])) = ErrorObjects (o e0).
Proof. unfold makeEntry. rewrite fold_left_app. done. Qed.

(** C8. [Error] with a nil error hands the logger one entry, the one
    it hands over for the error [errors.New("nil error logged - this is
    probably a bug")]: built at level error from that error's text, with
    the caller's options followed by [WithError] of that error, whose
    error objects the entry carries. *)
Theorem Error_nil (ctx : context) (opts : list Option) (logged : list Entry) :
  let entry := makeEntry ctx (errorText nilSentinel) LevelError
                 (opts ++ [WithError (Some nilSentinel)]) in
  let e0 := fold_left (fun l (o : Option) => o l) opts
              (newEntry (errorText nilSentinel) LevelError 3) in
  Error ctx None opts logged = Error ctx (Some nilSentinel) opts logged /\
  Error ctx None opts logged = logged ++ [entry] /\
  length (Error ctx None opts logged) = S (length logged) /\
  EntryErrorObject entry = EntryErrorObject (WithError (Some nilSentinel) e0) /\
  ErrorObjects entry = ErrorObjects (WithError (Some nilSentinel) e0).
Proof.
  intros entry e0. split; [done|]. split; [done|]. split.
  - unfold Error, Log. rewrite length_app. simpl. lia.
  - pose proof (makeEntry_last_option ctx (errorText nilSentinel) LevelError opts
                  (WithError (Some nilSentinel))) as (_ & Ho & Hos).
    by split.
Qed.
End Error.

End log_facts.

(** ** package errors, with the store *)
Module heap_facts.
Import models(KeyValue, Error, mkError, Code, Message, Source, Parameters, setCode).
Import jettison(Option, WithBinary, WithCode, WithoutStackTrace).
Import heap.

(** *** The monad *)

Lemma bind_inr {A B} (m : M A) (k : A -> M B) s a s1 :
  m s = inr (a, s1) -> bind m k s = k a s1.
Proof. unfold bind. by intros ->. Qed.


(** *** Stores that grow *)

Lemma extends_refl s : extends s s.
Proof. by repeat split. Qed.

Lemma extends_trans s1 s2 s3 : extends s1 s2 -> extends s2 s3 -> extends s1 s3.
Proof.
  intros (?&?&?) (?&?&?). repeat split; by etrans.
Qed.

Lemma extends_objects s s' l o :
  extends s s' -> objects s !! l = Some o -> objects s' !! l = Some o.
Proof. intros (Ho&_&_) E. exact (lookup_weaken _ _ _ _ E Ho). Qed.

Lemma extends_hopArrays s s' l hs :
  extends s s' -> hopArrays s !! l = Some hs -> hopArrays s' !! l = Some hs.
Proof. intros (_&Hh&_) E. exact (lookup_weaken _ _ _ _ E Hh). Qed.

Lemma extends_errorArrays s s' l es :
  extends s s' -> errorArrays s !! l = Some es -> errorArrays s' !! l = Some es.
Proof. intros (_&_&He) E. exact (lookup_weaken _ _ _ _ E He). Qed.

Lemma extends_objects_None s s' l :
  extends s s' -> objects s' !! l = None -> objects s !! l = None.
Proof.
  intros Hx Hn. destruct (objects s !! l) eqn:E; [|done].
  by rewrite (extends_objects _ _ _ _ Hx E) in Hn.
Qed.

Lemma extends_hopArrays_None s s' l :
  extends s s' -> hopArrays s' !! l = None -> hopArrays s !! l = None.
Proof.
  intros Hx Hn. destruct (hopArrays s !! l) eqn:E; [|done].
  by rewrite (extends_hopArrays _ _ _ _ Hx E) in Hn.
Qed.

Lemma extends_errorArrays_None s s' l :
  extends s s' -> errorArrays s' !! l = None -> errorArrays s !! l = None.
Proof.
  intros Hx Hn. destruct (errorArrays s !! l) eqn:E; [|done].
  by rewrite (extends_errorArrays _ _ _ _ Hx E) in Hn.
Qed.

Lemma fresh_None {V} (m : gmap positive V) : m !! fresh (dom m) = None.
Proof. apply not_elem_of_dom, is_fresh. Qed.

(** Writing where [s] has nothing keeps a store an extension of [s]. *)
Lemma extends_write_object s s' l o :
  extends s s' -> objects s !! l = None ->
  extends s (mkStore (<[l := o]> (objects s')) (hopArrays s') (errorArrays s')).
Proof.
  intros (Ho&Hh&He) Hn. repeat split; simpl; try done.
  by apply insert_subseteq_r.
Qed.

Lemma extends_write_hops s s' l hs :
  extends s s' -> hopArrays s !! l = None ->
  extends s (mkStore (objects s') (<[l := hs]> (hopArrays s')) (errorArrays s')).
Proof.
  intros (Ho&Hh&He) Hn. repeat split; simpl; try done.
  by apply insert_subseteq_r.
Qed.

Lemma extends_write_errors s s' l es :
  extends s s' -> errorArrays s !! l = None ->
  extends s (mkStore (objects s') (hopArrays s') (<[l := es]> (errorArrays s'))).
Proof.
  intros (Ho&Hh&He) Hn. repeat split; simpl; try done.
  by apply insert_subseteq_r.
Qed.

(** *** What is read from a store is read from every extension *)

Lemma viewHop_extends s s' h v :
  extends s s' -> viewHop s h = Some v -> viewHop s' h = Some v.
Proof.
  intros Hx. unfold viewHop. destruct (Errors h) as [a|]; [|done].
  destruct (errorArrays s !! a) as [es|] eqn:E; [|done].
  by rewrite (extends_errorArrays _ _ _ _ Hx E).
Qed.

Lemma viewHopList_extends s s' hs : forall vs,
  extends s s' -> viewHopList s hs = Some vs -> viewHopList s' hs = Some vs.
Proof.
  induction hs as [|h hs IH]; intros vs Hx; [done|]. simpl.
  destruct (viewHop s h) as [v|] eqn:Ev; [|done].
  destruct (viewHopList s hs) as [vs'|] eqn:Evs; [|done].
  intros [= <-]. by rewrite (viewHop_extends _ _ _ _ Hx Ev), (IH _ Hx eq_refl).
Qed.

Lemma viewHops_extends s s' sl vs :
  extends s s' -> viewHops s sl = Some vs -> viewHops s' sl = Some vs.
Proof.
  intros Hx. unfold viewHops. destruct sl as [a|]; [|done].
  destruct (hopArrays s !! a) as [hs|] eqn:E; [|done].
  rewrite (extends_hopArrays _ _ _ _ Hx E). by apply viewHopList_extends.
Qed.

Lemma view_extends s s' p v :
  extends s s' -> view s p = Some v -> view s' p = Some v.
Proof.
  intros Hx. unfold view.
  destruct (objects s !! p) as [[|je]|] eqn:E; try done.
  rewrite (extends_objects _ _ _ _ Hx E).
  destruct (viewHop s (Trace (metadata je))) as [t|] eqn:Et; [|done].
  destruct (viewHops s (Hops je)) as [hs|] eqn:Eh; [|done].
  by rewrite (viewHop_extends _ _ _ _ Hx Et), (viewHops_extends _ _ _ _ Hx Eh).
Qed.

(** The view of hops reads the arrays of segments only. *)
Lemma viewHop_errorArrays s s' h :
  errorArrays s' = errorArrays s -> viewHop s' h = viewHop s h.
Proof. unfold viewHop. by intros ->. Qed.

Lemma viewHopList_errorArrays s s' hs :
  errorArrays s' = errorArrays s -> viewHopList s' hs = viewHopList s hs.
Proof.
  intros E. induction hs as [|h hs IH]; [done|].
  simpl. by rewrite (viewHop_errorArrays _ _ _ E), IH.
Qed.

Lemma hasTrace_extends fuel : forall e s s' r,
  extends s s' -> hasTrace fuel e s = inr r -> hasTrace fuel e s' = inr r.
Proof.
  induction fuel as [|fuel IH]; intros [p|] s s' r Hx; simpl; try done.
  destruct (objects s !! p) as [o|] eqn:E; [|done].
  rewrite (extends_objects _ _ _ _ Hx E).
  destruct o as [t [|next|cs]|je]; try done.
  - by apply IH.
  - case_decide; [by apply IH|done].
Qed.

(** Fuel that is enough stays enough. *)
Lemma hasTrace_fuel fuel : forall fuel' e s r,
  fuel <= fuel' -> hasTrace fuel e s = inr r -> hasTrace fuel' e s = inr r.
Proof.
  induction fuel as [|fuel IH]; intros fuel' [p|] s r Hle; simpl;
    try done; try (by destruct fuel').
  destruct fuel' as [|fuel']; [lia|]. simpl.
  destruct (objects s !! p) as [[t [|next|cs]|je]|]; try done.
  - apply IH. lia.
  - case_decide; [apply IH; lia|done].
Qed.

(** *** Clone *)

Lemma keepsSegments_refl s : keepsSegments s s.
Proof. by intros b. Qed.

Lemma keepsSegments_subseteq s s' :
  errorArrays s ⊆ errorArrays s' -> keepsSegments s s'.
Proof.
  intros Hsub b [es E]. exists es. exact (lookup_weaken _ _ _ _ E Hsub).
Qed.

Lemma keepsSegments_insert s s' b es :
  errorArrays s' = <[b := es]> (errorArrays s) -> keepsSegments s s'.
Proof.
  intros E b' Hb'. rewrite E. destruct (decide (b = b')) as [->|Hne].
  - rewrite lookup_insert_eq. eauto.
  - by rewrite lookup_insert_ne.
Qed.

Lemma newSegments_keeps s0 s s' sl :
  keepsSegments s s' -> newSegments s0 s sl -> newSegments s0 s' sl.
Proof. destruct sl as [b|]; [|done]. intros Hk [Hn Hs]. split; [done|auto]. Qed.

Lemma newSegments_base s0 s1 s sl :
  extends s0 s1 -> newSegments s1 s sl -> newSegments s0 s sl.
Proof.
  destruct sl as [b|]; [|done]. intros Hx [Hn Hs]. split; [|done].
  by eapply extends_errorArrays_None.
Qed.

Lemma cloneHop_spec s h v :
  viewHop s h = Some v ->
  exists h' s',
    cloneHop h s = inr (h', s') /\
    objects s' = objects s /\ hopArrays s' = hopArrays s /\
    errorArrays s ⊆ errorArrays s' /\
    viewHop s' h' = Some v /\ newSegments s s' (Errors h').
Proof.
  unfold viewHop, cloneHop, cloneErrors.
  destruct (Errors h) as [a|] eqn:Ea.
  - destruct (errorArrays s !! a) as [es|] eqn:E; [|done]. intros [= <-].
    do 2 eexists. split.
    { unfold bind, readErrors, allocErrors, ret. rewrite E. reflexivity. }
    simpl. repeat split; try done.
    + apply insert_subseteq, fresh_None.
    + by rewrite lookup_insert_eq.
    + apply fresh_None.
    + rewrite lookup_insert_eq. eauto.
  - intros [= <-]. exists (mkHop (Binary h) (StackTrace h) None), s.
    by repeat split.
Qed.

Lemma cloneHopList_spec hs : forall s vs,
  viewHopList s hs = Some vs ->
  exists hs' s',
    cloneHopList hs s = inr (hs', s') /\
    objects s' = objects s /\ hopArrays s' = hopArrays s /\
    errorArrays s ⊆ errorArrays s' /\
    viewHopList s' hs' = Some vs /\
    Forall (fun h' => newSegments s s' (Errors h')) hs'.
Proof.
  induction hs as [|h hs IH]; intros s vs.
  - intros [= <-]. exists [], s. by repeat split.
  - simpl. destruct (viewHop s h) as [v|] eqn:Ev; [|done].
    destruct (viewHopList s hs) as [vs'|] eqn:Evs; [|done]. intros [= <-].
    destruct (cloneHop_spec s h v Ev) as (h' & s1 & Hc & Ho1 & Hh1 & He1 & Hv1 & Hn1).
    assert (Hx1 : extends s s1).
    { repeat split; [by rewrite Ho1|by rewrite Hh1|done]. }
    destruct (IH s1 vs' (viewHopList_extends _ _ _ _ Hx1 Evs))
      as (hs' & s2 & Hcs & Ho2 & Hh2 & He2 & Hv2 & Hn2).
    assert (Hx2 : extends s1 s2).
    { repeat split; [by rewrite Ho2|by rewrite Hh2|done]. }
    exists (h' :: hs'), s2. split.
    { rewrite (bind_inr _ _ _ _ _ Hc), (bind_inr _ _ _ _ _ Hcs). reflexivity. }
    repeat split; try congruence.
    + by etrans.
    + simpl. by rewrite (viewHop_extends _ _ _ _ Hx2 Hv1), Hv2.
    + constructor.
      * eapply newSegments_keeps; [|exact Hn1]. by apply keepsSegments_subseteq.
      * eapply Forall_impl; [exact Hn2|]. intros h2 Hh. simpl in Hh.
        by eapply newSegments_base.
Qed.

Lemma readObject_eq s p o :
  objects s !! p = Some o -> readObject p s = inr (o, s).
Proof. unfold readObject. by intros ->. Qed.

Lemma readJettison_eq s p je :
  objects s !! p = Some (Jettison je) -> readJettison p s = inr (je, s).
Proof.
  intros E. unfold readJettison. by rewrite (bind_inr _ _ _ _ _ (readObject_eq _ _ _ E)).
Qed.

Lemma readHops_eq s a hs :
  hopArrays s !! a = Some hs -> readHops a s = inr (hs, s).
Proof. unfold readHops. by intros ->. Qed.

Lemma readErrors_eq s a es :
  errorArrays s !! a = Some es -> readErrors a s = inr (es, s).
Proof. unfold readErrors. by intros ->. Qed.

Lemma cloneHops_spec s a hs vs :
  hopArrays s !! a = Some hs -> viewHopList s hs = Some vs ->
  exists a' hs' s',
    cloneHops (Some a) s = inr (Some a', s') /\
    objects s' = objects s /\
    hopArrays s !! a' = None /\ hopArrays s' = <[a' := hs']> (hopArrays s) /\
    errorArrays s ⊆ errorArrays s' /\
    viewHopList s' hs' = Some vs /\
    Forall (fun h' => newSegments s s' (Errors h')) hs'.
Proof.
  intros Ea Ev.
  destruct (cloneHopList_spec hs s vs Ev) as (hs' & s1 & Hc & Ho & Hh & He & Hv & Hn).
  exists (fresh (dom (hopArrays s1))), hs',
    (mkStore (objects s1) (<[fresh (dom (hopArrays s1)) := hs']> (hopArrays s1))
             (errorArrays s1)).
  split.
  { unfold cloneHops.
    rewrite (bind_inr _ _ _ _ _ (readHops_eq _ _ _ Ea)), (bind_inr _ _ _ _ _ Hc).
    reflexivity. }
  simpl. repeat split; try done.
  - rewrite <- Hh. apply fresh_None.
  - by rewrite Hh.
  - by rewrite (viewHopList_errorArrays s1).
Qed.

Lemma Clone_spec s p v :
  view s p = Some v -> vHops v <> [] ->
  exists q s' a hs,
    Clone p s = inr (q, s') /\ extends s s' /\
    view s' q = Some v /\ ownsHops s s' q a hs.
Proof.
  unfold view. destruct (objects s !! p) as [[|je]|] eqn:Ep; try done.
  destruct (viewHop s (Trace (metadata je))) as [t|] eqn:Et; [|done].
  destruct (viewHops s (Hops je)) as [vs|] eqn:Eh; [|done].
  intros [= <-] Hne. simpl in Hne.
  unfold viewHops in Eh. destruct (Hops je) as [a|] eqn:Ea; [|by injection Eh as <-].
  destruct (hopArrays s !! a) as [hs|] eqn:Eha; [|done].
  destruct (cloneHop_spec s _ t Et) as (tr & s1 & Hc1 & Ho1 & Hh1 & He1 & Hv1 & _).
  assert (Hx1 : extends s s1).
  { repeat split; [by rewrite Ho1|by rewrite Hh1|done]. }
  assert (Eha1 : hopArrays s1 !! a = Some hs) by (by rewrite Hh1).
  destruct (cloneHops_spec s1 a hs vs Eha1 (viewHopList_extends _ _ _ _ Hx1 Eh))
    as (a' & hs' & s2 & Hc2 & Ho2 & Ha' & Hh2 & He2 & Hv2 & Hn2).
  set (q := fresh (dom (objects s2))).
  set (je' := mkJettisonError (message je) (err je)
                (mkMetadata tr (MetaCode (metadata je))) (Some a') (OriginalErr je)).
  set (s' := mkStore (<[q := Jettison je']> (objects s2)) (hopArrays s2) (errorArrays s2)).
  exists q, s', a', hs'.
  assert (Hq : objects s !! q = None).
  { rewrite <- Ho1, <- Ho2. apply fresh_None. }
  assert (Hx : extends s s').
  { repeat split; simpl.
    - rewrite Ho2, Ho1. by apply insert_subseteq.
    - rewrite Hh2, Hh1. apply insert_subseteq. by rewrite <- Hh1.
    - by etrans. }
  split; [|split; [done|split]].
  - unfold Clone.
    rewrite (bind_inr _ _ _ _ _ (readJettison_eq _ _ _ Ep)).
    rewrite (bind_inr _ _ _ _ _ Hc1). rewrite Ea.
    rewrite (bind_inr _ _ _ _ _ Hc2). reflexivity.
  - unfold view. simpl. rewrite lookup_insert_eq. simpl.
    assert (Hx2 : extends s1 s2).
    { repeat split; [by rewrite Ho2| |done].
      rewrite Hh2. by apply insert_subseteq. }
    assert (Hv1' : viewHop s2 tr = Some t) by (by eapply viewHop_extends).
    rewrite (viewHop_errorArrays s2 s') by done. rewrite Hv1'.
    rewrite Hh2, lookup_insert_eq.
    rewrite (viewHopList_errorArrays s2 s') by done. by rewrite Hv2.
  - repeat split; simpl; try done.
    + by rewrite <- Hh1.
    + exists je'. by rewrite lookup_insert_eq.
    + by rewrite Hh2, lookup_insert_eq.
    + eapply Forall_impl; [exact Hn2|]. intros h2 Hh. simpl in Hh.
      eapply newSegments_base; [exact Hx1|]. exact Hh.
Qed.

(** *** The steps of Wrap on the chain it builds *)

Lemma readHop0_eq s q je a h rest :
  objects s !! q = Some (Jettison je) -> Hops je = Some a ->
  hopArrays s !! a = Some (h :: rest) ->
  readHop0 q s = inr (h, s).
Proof.
  intros Eq Ea Eh. unfold readHop0.
  rewrite (bind_inr _ _ _ _ _ (readJettison_eq _ _ _ Eq)), Ea.
  by rewrite (bind_inr _ _ _ _ _ (readHops_eq _ _ _ Eh)).
Qed.

Lemma writeHop0_eq s q je a h rest h' :
  objects s !! q = Some (Jettison je) -> Hops je = Some a ->
  hopArrays s !! a = Some (h :: rest) ->
  writeHop0 q h' s =
    inr (tt, mkStore (objects s) (<[a := h' :: rest]> (hopArrays s)) (errorArrays s)).
Proof.
  intros Eq Ea Eh. unfold writeHop0.
  rewrite (bind_inr _ _ _ _ _ (readJettison_eq _ _ _ Eq)), Ea.
  rewrite (bind_inr _ _ _ _ _ (readHops_eq _ _ _ Eh)).
  unfold writeHops. by rewrite Eh.
Qed.

Lemma ownsHops_readHop0 s0 s q a h rest :
  ownsHops s0 s q a (h :: rest) -> readHop0 q s = inr (h, s).
Proof. intros (_ & _ & (je & Eq & Ea) & Eh & _). by eapply readHop0_eq. Qed.

Lemma ownsHops_writeHop0 s0 s q a h rest h' :
  extends s0 s -> ownsHops s0 s q a (h :: rest) ->
  newSegments s0 s (Errors h') ->
  exists s', writeHop0 q h' s = inr (tt, s') /\
    extends s0 s' /\ ownsHops s0 s' q a (h' :: rest) /\
    errorArrays s' = errorArrays s /\ objects s' = objects s.
Proof.
  intros Hx (Hq & Ha & (je & Eq & Ea) & Eh & Hn) Hn'.
  eexists. split; [by eapply writeHop0_eq|].
  split; [by apply extends_write_hops|]. split; [|done].
  repeat split; simpl; try done.
  - by exists je.
  - by rewrite lookup_insert_eq.
  - apply Forall_cons_1 in Hn as [_ Hn]. by constructor.
Qed.

Lemma ownsHops_keeps s0 s s' q a hs :
  objects s' = objects s -> hopArrays s' = hopArrays s -> keepsSegments s s' ->
  ownsHops s0 s q a hs -> ownsHops s0 s' q a hs.
Proof.
  intros Ho Hh Hk (Hq & Ha & Hje & Eh & Hn).
  repeat split; try done; try congruence.
  - by rewrite Ho.
  - eapply Forall_impl; [exact Hn|]. intros h. by apply newSegments_keeps.
Qed.

Lemma ownsHops_segments s0 s q a h rest :
  ownsHops s0 s q a (h :: rest) ->
  exists es, segments (Errors h) s = inr (es, s).
Proof.
  intros (_ & _ & _ & _ & Hn). apply Forall_cons_1 in Hn as [Hn _].
  unfold segments. destruct (Errors h) as [b|]; [|by exists []].
  destruct Hn as [_ [es E]]. exists es. by apply readErrors_eq.
Qed.

Lemma ownsHops_allocErrors s0 s q a hs es :
  extends s0 s -> ownsHops s0 s q a hs ->
  let b := fresh (dom (errorArrays s)) in
  let s' := mkStore (objects s) (hopArrays s) (<[b := es]> (errorArrays s)) in
  allocErrors es s = inr (b, s') /\
  extends s0 s' /\ ownsHops s0 s' q a hs /\ newSegments s0 s' (Some b).
Proof.
  intros Hx Ho b s'. split; [reflexivity|].
  assert (Hb : errorArrays s0 !! b = None).
  { eapply extends_errorArrays_None; [exact Hx|]. apply fresh_None. }
  split; [by apply extends_write_errors|]. split.
  - apply (ownsHops_keeps s0 s); [done|done| |exact Ho].
    by eapply keepsSegments_insert.
  - split; [done|]. simpl. rewrite lookup_insert_eq. eauto.
Qed.

(** An option applied to a hop of the chain being built writes, at
    most, to the hop's own array of segments. *)
Lemma unchanged_new s0 s (h h' : Hop) :
  extends s0 s -> Errors h' = Errors h ->
  extends s0 s /\ objects s = objects s /\ hopArrays s = hopArrays s /\
  keepsSegments s s /\ Errors h' = Errors h.
Proof. intros Hx E. split_and!; try done. apply keepsSegments_refl. Qed.

Lemma ApplyHop_new s0 s o h :
  extends s0 s -> newSegments s0 s (Errors h) ->
  exists h' s', ApplyHop o h s = inr (h', s') /\
    extends s0 s' /\ objects s' = objects s /\ hopArrays s' = hopArrays s /\
    keepsSegments s s' /\ Errors h' = Errors h.
Proof.
  intros Hx Hn. destruct o as [bin|code|]; simpl.
  - exists (setBinary bin h), s. split; [done|]. by apply unchanged_new.
  - destruct (Errors h) as [b|] eqn:Eb.
    + destruct Hn as [Hb [es E]].
      rewrite (bind_inr _ _ _ _ _ (readErrors_eq _ _ _ E)).
      destruct es as [|e0 rest].
      * exists h, s. split; [done|]. rewrite <- Eb. by apply unchanged_new.
      * exists h. eexists. split.
        { unfold bind, writeErrors, ret. rewrite E. reflexivity. }
        split; [by apply extends_write_errors|]. split_and!; try done.
        by eapply keepsSegments_insert.
    + exists h, s. split; [done|]. rewrite <- Eb. by apply unchanged_new.
  - assert (Hs : exists es, segments (Errors h) s = inr (es, s)).
    { unfold segments. destruct (Errors h) as [b|]; [|by exists []].
      destruct Hn as [_ [es E]]. exists es. by apply readErrors_eq. }
    destruct Hs as [es Hs]. rewrite (bind_inr _ _ _ _ _ Hs).
    destruct (length es <=? 1)%nat.
    + exists (setStackTrace None h), s. split; [done|]. by apply unchanged_new.
    + exists h, s. split; [done|]. by apply unchanged_new.
Qed.

Lemma applyAt_new s0 q a ol : forall s h rest md,
  extends s0 s -> ownsHops s0 s q a (h :: rest) ->
  exists md' s' h', applyAt q ol md s = inr (md', s') /\
    extends s0 s' /\ ownsHops s0 s' q a (h' :: rest).
Proof.
  induction ol as [|o ol IH]; intros s h rest md Hx Ho.
  - exists md, s, h. by split_and!.
  - simpl. rewrite (bind_inr _ _ _ _ _ (ownsHops_readHop0 _ _ _ _ _ _ Ho)).
    assert (Hn : newSegments s0 s (Errors h)).
    { destruct Ho as (_ & _ & _ & _ & Hn). by apply Forall_cons_1 in Hn as [Hn _]. }
    destruct (ApplyHop_new s0 s o h Hx Hn)
      as (h' & s1 & Ha & Hx1 & Ho1 & Hh1 & Hk1 & He1).
    rewrite (bind_inr _ _ _ _ _ Ha).
    assert (Ho' : ownsHops s0 s1 q a (h :: rest)) by (by apply (ownsHops_keeps s0 s)).
    assert (Hn' : newSegments s0 s1 (Errors h')).
    { rewrite He1. by eapply newSegments_keeps. }
    destruct (ownsHops_writeHop0 s0 s1 q a h rest h' Hx1 Ho' Hn')
      as (s2 & Hw & Hx2 & Ho2 & _).
    rewrite (bind_inr _ _ _ _ _ Hw). by apply (IH s2 h' rest).
Qed.

(** *** Wrap *)

Lemma view_object s p v :
  view s p = Some v -> exists je, objects s !! p = Some (Jettison je).
Proof.
  unfold view. destruct (objects s !! p) as [[|je]|]; try done. eauto.
Qed.

Lemma view_hops s q je a hs v :
  view s q = Some v -> objects s !! q = Some (Jettison je) ->
  Hops je = Some a -> hopArrays s !! a = Some hs ->
  viewHopList s hs = Some (vHops v).
Proof.
  unfold view. intros Hv Eq Ea Eh. rewrite Eq in Hv.
  destruct (viewHop s (Trace (metadata je))); [|done].
  unfold viewHops in Hv. rewrite Ea, Eh in Hv.
  destruct (viewHopList s hs); [|done]. by injection Hv as <-.
Qed.

(** The branch of [Wrap] for a chain value: the clone, whose hops are
    there to be indexed when the chain has a hop. *)
Lemma wrapTarget_chain c s p v :
  view s p = Some v -> vHops v <> [] ->
  exists q s1 a h rest,
    wrapTarget c p s = inr (q, s1) /\ extends s s1 /\
    ownsHops s s1 q a (h :: rest).
Proof.
  intros Hv Hne. destruct (view_object _ _ _ Hv) as [je Ep].
  destruct (Clone_spec s p v Hv Hne) as (q & s1 & a & hs & Hc & Hx & Hvq & Ho).
  destruct hs as [|h rest].
  { destruct Ho as (_ & _ & (je1 & Eq & Ea) & Eh & _).
    pose proof (view_hops _ _ _ _ _ _ Hvq Eq Ea Eh) as Hl. simpl in Hl.
    by injection Hl as Hl. }
  exists q, s1, a, h, rest. split; [|done].
  unfold wrapTarget. by rewrite (bind_inr _ _ _ _ _ (readObject_eq _ _ _ Ep)).
Qed.

(** From the chain being built to the chain returned: everything
    [Wrap] does after [wrapTarget]. *)
Lemma Wrap_from_target fuel c p msg ol s0 s1 q a h rest found :
  extends s0 s1 -> ownsHops s0 s1 q a (h :: rest) ->
  hasTrace fuel (Some p) s0 = inr found ->
  wrapTarget c p s0 = inr (q, s1) ->
  exists s', Wrap fuel c (Some p) msg ol s0 = inr (Some q, s') /\
    extends s0 s' /\ independent s0 s' q.
Proof.
  intros Hx1 Ho1 Hfound Ht.
  (* the stack trace of the current hop *)
  assert (H2 : exists s2 h2,
    (match StackTrace h with
     | None => writeHop0 q (setStackTrace (GetStackTrace c 2) h)
     | Some _ => ret tt
     end) s1 = inr (tt, s2) /\ extends s0 s2 /\ ownsHops s0 s2 q a (h2 :: rest)).
  { destruct (StackTrace h).
    - exists s1, h. by split_and!.
    - assert (Hn : newSegments s0 s1 (Errors (setStackTrace (GetStackTrace c 2) h))).
      { destruct Ho1 as (_ & _ & _ & _ & Hn). by apply Forall_cons_1 in Hn as [Hn _]. }
      destruct (ownsHops_writeHop0 _ _ _ _ _ _ _ Hx1 Ho1 Hn) as (s2 & Hw & Hx2 & Ho2 & _).
      by exists s2, (setStackTrace (GetStackTrace c 2) h). }
  destruct H2 as (s2 & h2 & Hst & Hx2 & Ho2).
  (* the new segment in front *)
  destruct (ownsHops_segments _ _ _ _ _ _ Ho2) as [old Hold].
  destruct (ownsHops_allocErrors s0 s2 q a (h2 :: rest) (NewError c msg :: old) Hx2 Ho2)
    as (Hal & Hx3 & Ho3 & Hb).
  set (b := fresh (dom (errorArrays s2))) in *.
  set (s3 := mkStore (objects s2) (hopArrays s2)
                     (<[b := NewError c msg :: old]> (errorArrays s2))) in *.
  destruct (ownsHops_writeHop0 s0 s3 q a h2 rest (setErrors (Some b) h2) Hx3 Ho3 Hb)
    as (s4 & Hw4 & Hx4 & Ho4 & _).
  (* the search for a trace reads the same objects *)
  assert (Hht : hasTraceM fuel (Some p) s4 = inr (found, s4)).
  { unfold hasTraceM. by rewrite (hasTrace_extends _ _ _ _ _ Hx4 Hfound). }
  (* the options *)
  destruct (applyAt_new s0 q a ol s4 _ rest
              (if snd found then zeroMetadata else setTrace (trace c) zeroMetadata)
              Hx4 Ho4)
    as (md & s5 & h5 & Hap & Hx5 & Ho5).
  (* the fields of the returned struct *)
  pose proof Ho5 as (Hq & Ha & (j & Ej & Eja) & Eh5 & Hn5).
  set (j' := mkJettisonError msg (Some p) md (Hops j) (OriginalErr j)).
  exists (mkStore (<[q := Jettison j']> (objects s5)) (hopArrays s5) (errorArrays s5)).
  split; [|split].
  - unfold Wrap. rewrite (bind_inr _ _ _ _ _ Ht).
    rewrite (bind_inr _ _ _ _ _ (ownsHops_readHop0 _ _ _ _ _ _ Ho1)).
    rewrite (bind_inr _ _ _ _ _ Hst).
    rewrite (bind_inr _ _ _ _ _ (ownsHops_readHop0 _ _ _ _ _ _ Ho2)).
    rewrite (bind_inr _ _ _ _ _ Hold), (bind_inr _ _ _ _ _ Hal).
    rewrite (bind_inr _ _ _ _ _ Hw4), (bind_inr _ _ _ _ _ Hht).
    rewrite (bind_inr _ _ _ _ _ Hap).
    rewrite (bind_inr _ _ _ _ _ (readJettison_eq _ _ _ Ej)).
    unfold bind, writeObject, ret. by rewrite Ej.
  - by apply extends_write_object.
  - exists a, (h5 :: rest). split_and!; try done.
    exists j'. simpl. by rewrite lookup_insert_eq.
Qed.

(** C1. [Wrap] of a chain value [p] that has a hop returns a chain and
    leaves every object of the store as it was: the store after the call
    extends the store before it, so the chain at [p] (message, wrapped
    error, metadata, hops and their segments) reads the same before and
    after; and the chain returned is made of new objects only, sharing
    no struct and no backing array with the store before the call. *)
Theorem Wrap_does_not_mutate (fuel : nat) (c : CallSite) (p : positive)
    (msg : string) (ol : list Option) (s : store) (v : ChainView)
    (found : Hop * bool) :
  view s p = Some v -> vHops v <> [] ->
  hasTrace fuel (Some p) s = inr found ->
  exists r s',
    Wrap fuel c (Some p) msg ol s = inr (Some r, s') /\
    extends s s' /\ view s' p = Some v /\
    r <> p /\ independent s s' r.
Proof.
  intros Hv Hne Hfound.
  destruct (wrapTarget_chain c s p v Hv Hne) as (q & s1 & a & h & rest & Ht & Hx1 & Ho1).
  destruct (Wrap_from_target fuel c p msg ol s s1 q a h rest found Hx1 Ho1 Hfound Ht)
    as (s' & HW & Hx & Hind).
  exists q, s'. split_and!; try done.
  - by eapply view_extends.
  - intros ->. destruct Hind as (a' & hs & Hq & _).
    destruct (view_object _ _ _ Hv) as [je Ep]. congruence.
Qed.

(** An instance: [e1 := New("a", WithCode("X"))], then
    [Wrap(e1, "b", WithCode("Y"))]; [e1] still reads with code [X]. *)
Lemma Wrap_does_not_mutate_witness :
  exists r s',
    Wrap 1 examples.heapSiteB (Some examples.ptrE1) "b" [WithCode "Y"]
         examples.storeE1 = inr (Some r, s') /\
    extends examples.storeE1 s' /\
    view s' examples.ptrE1 =
      Some (mkChainView "a" None
              (mkHopView "svc-a" (Some ["main.run"; "main.main"]) []) "X"
              [mkHopView "svc-a" (Some ["main.run"; "main.main"])
                         [mkError "X" "a" "main.go:10" []]]
              None) /\
    r <> examples.ptrE1 /\ independent examples.storeE1 s' r.
Proof.
  apply (Wrap_does_not_mutate 1 examples.heapSiteB examples.ptrE1 "b" [WithCode "Y"]
           examples.storeE1 _
           (mkHop "svc-a" (Some ["main.run"; "main.main"]) None, true)).
  - vm_compute. reflexivity.
  - discriminate.
  - vm_compute. reflexivity.
Defined.

(** The example of [GetCodes] run in the store: [e1 := New("a",
    WithCode("X"))], [e2 := Wrap(e1, "b", WithCode("Y"))], and the codes
    of [e2] and, afterwards still, of [e1]. *)
Example GetCodes_in_store :
  (do e1 <- New examples.heapSiteA "a" [WithCode "X"];
   do e2 <- Wrap 1 examples.heapSiteB e1 "b" [WithCode "Y"];
   do c2 <- GetCodes e2;
   do c1 <- GetCodes e1;
   ret (c2, c1)) examples.emptyStore
  = inr ((["Y"; "X"], ["X"]),
         match (do e1 <- New examples.heapSiteA "a" [WithCode "X"];
                Wrap 1 examples.heapSiteB e1 "b" [WithCode "Y"]) examples.emptyStore with
         | inr (_, s) => s
         | inl _ => examples.emptyStore
         end).
Proof. vm_compute. reflexivity. Qed.

End heap_facts.

(** ** The model with the store computes what the model on values computes *)
Module agreement_facts.
Import models(Error, mkError).
Import heap heap_facts agreement.

(** *** Options *)

Lemma ApplyHop_agrees s0 s o h b ph :
  extends s0 s -> errorArrays s0 !! b = None -> hopAt s h b ph ->
  exists h' s',
    ApplyHop o h s = inr (h', s') /\
    extends s0 s' /\ objects s' = objects s /\ hopArrays s' = hopArrays s /\
    errorArrays s' = <[b := models.Errors (jettison.ApplyHop o ph)]> (errorArrays s) /\
    hopAt s' h' b (jettison.ApplyHop o ph).
Proof.
  intros Hx Hb (Eb & Es & Ebin & Est).
  assert (Hid : errorArrays s = <[b := models.Errors ph]> (errorArrays s))
    by (by rewrite insert_id).
  destruct o as [bin|code|]; simpl.
  - exists (setBinary bin h), s. unfold hopAt. by split_and!.
  - rewrite Eb. rewrite (bind_inr _ _ _ _ _ (readErrors_eq _ _ _ Es)).
    destruct (models.Errors ph) as [|e0 rest] eqn:Ep.
    + exists h, s. unfold hopAt. rewrite Ep. by split_and!.
    + exists h. eexists. split.
      { unfold bind, writeErrors, ret. rewrite Es. reflexivity. }
      split; [by apply extends_write_errors|]. unfold hopAt. simpl.
      rewrite lookup_insert_eq. by split_and!.
  - unfold segments. rewrite Eb.
    rewrite (bind_inr _ _ _ _ _ (readErrors_eq _ _ _ Es)).
    destruct (length (models.Errors ph) <=? 1)%nat.
    + exists (setStackTrace None h), s. unfold hopAt. by split_and!.
    + exists h, s. unfold hopAt. by split_and!.
Qed.

Lemma ApplyMetadata_agrees o md :
  Errors (Trace md) = None ->
  Errors (Trace (ApplyMetadata o md)) = None /\
  metadataOf (ApplyMetadata o md) = jettison.ApplyMetadata o (metadataOf md).
Proof. intros E. by destruct o. Qed.



(** *** Wrap *)






End agreement_facts.

(** ** package errors: more on New, Wrap and the queries *)
Module errors_more.
Import models jettison internal errors errors_api option_facts errors_facts.

(** *** What the options leave on a hop *)

Lemma setCode_same e : setCode (Code e) e = e.
Proof. by destruct e. Qed.

Lemma applyHops_Errors ol : forall h e0 es,
  Errors h = e0 :: es ->
  Errors (applyHops ol h) = setCode (lastCode ol (Code e0)) e0 :: es.
Proof.
  induction ol as [|o ol IH]; intros h e0 es E.
  - simpl. by rewrite setCode_same.
  - rewrite applyHops_cons. destruct o as [bin|code|].
    + by apply IH.
    + simpl. rewrite E. erewrite IH; [|reflexivity]. done.
    + apply IH. simpl. by destruct (length (Errors h) <=? 1)%nat.
Qed.

Lemma applyHops_Binary ol : forall h,
  Binary (applyHops ol h) = lastBinary ol (Binary h).
Proof.
  induction ol as [|o ol IH]; intros h; [done|].
  rewrite applyHops_cons, IH. destruct o as [bin|code|]; simpl; try done.
  - by destruct (Errors h).
  - by destruct (length (Errors h) <=? 1)%nat.
Qed.

(** On a hop of one segment the trace survives the options exactly when
    none of them is [WithoutStackTrace]. *)
Lemma applyHops_trace_one ol : forall h,
  length (Errors h) = 1 ->
  StackTrace (applyHops ol h) =
    if existsb isWithoutStackTrace ol then None else StackTrace h.
Proof.
  induction ol as [|o ol IH]; intros h L; [done|].
  rewrite applyHops_cons. destruct o as [bin|code|]; cbn [existsb isWithoutStackTrace orb].
  - by rewrite IH.
  - rewrite IH by (by rewrite ApplyHop_length). simpl. by destruct (Errors h).
  - rewrite WithoutStackTrace_clear by lia. by apply applyHops_trace_none.
Qed.

(** *** New *)

(** X1. [New] returns a chain with the message, no wrapped and no
    original error, and one hop holding one segment: [NewError(msg)] with
    the code of the last [WithCode]. The hop's binary is the one of the
    last [WithBinary] (else [NewHop]'s), its trace the captured one unless
    some option is [WithoutStackTrace]; the metadata code is the one of the
    last [WithCode], empty without one. *)
Theorem New_shape (c : CallSite) (msg : string) (ol : list Option) :
  exists h md,
    New c msg ol = Jettison msg None md [h] None /\
    Errors h = [newSegment c msg ol] /\
    Binary h = lastBinary ol (Binary (NewHop c)) /\
    StackTrace h = (if existsb isWithoutStackTrace ol then None else GetStackTrace c 2) /\
    MetaCode md = lastCode ol "".
Proof.
  rewrite New_unfold. do 2 eexists. split; [reflexivity|]. split_and!.
  - by erewrite applyHops_Errors.
  - by rewrite applyHops_Binary.
  - by rewrite applyHops_trace_one.
  - by rewrite applyMetadatas_code.
Qed.

(** *** Wrap *)

(** X2. [Wrap] of a non-nil error never returns nil, and it panics (the
    index [je.Hops[0]] is out of range) exactly when the error is a chain
    value without hops. *)
Theorem Wrap_outcome (c : CallSite) (e : error) (msg : string) (ol : list Option) :
  Wrap c (Some e) msg ol <> Return None /\
  (Wrap c (Some e) msg ol = Panic <-> isJettison e = true /\ Hops e = []).
Proof.
  rewrite Wrap_unfold.
  destruct e as [t|t n|t cs|m w md [|h0 rest] o]; simpl; split; try done;
    split; try done; by intros [? ?].
Qed.

(** X3. [Wrap] of a chain value with a hop: the chain returned has the
    new message, wraps the input, keeps the original error and every hop
    but the current one as they were; the current hop gets one segment in
    front, [NewError(msg)] with the code of the last [WithCode], and the
    older segments stay as they were, whatever the options; its binary is
    the one of the last [WithBinary], else the one it had. *)
Theorem Wrap_prepends (c : CallSite) (m : string) (w : option error) (md : Metadata)
    (h0 : Hop) (rest : list Hop) (o : option error) (msg : string) (ol : list Option) :
  exists h' md',
    Wrap c (Some (Jettison m w md (h0 :: rest) o)) msg ol =
      Return (Some (Jettison msg (Some (Jettison m w md (h0 :: rest) o)) md'
                             (h' :: rest) o)) /\
    Errors h' = newSegment c msg ol :: Errors h0 /\
    Binary h' = lastBinary ol (Binary h0).
Proof.
  rewrite Wrap_unfold. cbn [wrapTarget Clone Hops fst snd].
  do 2 eexists. split; [reflexivity|]. split.
  - erewrite applyHops_Errors; [reflexivity|]. unfold readyHop. by destruct (StackTrace h0).
  - rewrite applyHops_Binary. unfold readyHop. by destruct (StackTrace h0).
Qed.

(** X4. [Wrap] of a foreign error returns a chain of one hop with two
    segments, the new one in front of one holding the error's text; the
    chain wraps the error and has it as its original error. The hop has
    the binary of the last [WithBinary], else [NewHop]'s, and the trace of
    [NewHop] or, without one, the trace captured by the call: with two
    segments no option clears it. *)
Theorem Wrap_foreign_shape (c : CallSite) (e : error) (msg : string)
    (ol : list Option) :
  isJettison e = false ->
  exists h' md',
    Wrap c (Some e) msg ol = Return (Some (Jettison msg (Some e) md' [h'] (Some e))) /\
    Errors h' = [newSegment c msg ol; mkError "" (foreignText e) "" []] /\
    Binary h' = lastBinary ol (Binary (NewHop c)) /\
    StackTrace h' = match StackTrace (NewHop c) with
                    | Some t => Some t
                    | None => GetStackTrace c 2
                    end.
Proof.
  intros HJ. rewrite Wrap_unfold.
  assert (Ht : wrapTarget c e
               = ([setErrors [mkError "" (foreignText e) "" []] (NewHop c)], Some e))
    by (by destruct e).
  rewrite Ht. cbn [fst snd]. do 2 eexists. split; [reflexivity|]. split_and!.
  - erewrite applyHops_Errors; [reflexivity|]. unfold readyHop. simpl.
    by destruct (StackTrace (NewHop c)).
  - rewrite applyHops_Binary. unfold readyHop. simpl.
    by destruct (StackTrace (NewHop c)).
  - rewrite applyHops_trace_keep by (by rewrite readyHop_length).
    by rewrite readyHop_trace.
Qed.

(** An instance: a plain error wrapped with a code at call site A. *)
Lemma Wrap_foreign_shape_witness :
  exists h' md',
    Wrap examples.siteA (Some (Leaf "timeout")) "load user" [WithCode "E_LOAD"]
      = Return (Some (Jettison "load user" (Some (Leaf "timeout")) md' [h']
                               (Some (Leaf "timeout")))) /\
    Errors h' = [mkError "E_LOAD" "load user" "main.go:10" [];
                 mkError "" "timeout" "" []] /\
    Binary h' = "svc-a" /\
    StackTrace h' = Some ["main.run"; "main.main"].
Proof.
  exact (Wrap_foreign_shape examples.siteA (Leaf "timeout") "load user"
           [WithCode "E_LOAD"] eq_refl).
Defined.

(** *** OriginalError *)

Lemma Wrap_OriginalError c e msg ol e' :
  Wrap c (Some e) msg ol = Return (Some e') ->
  isJettison e' = true /\
  OriginalError (Some e') = if isJettison e then OriginalError (Some e) else Some e.
Proof.
  rewrite Wrap_unfold. destruct e as [t|t n|t cs|m w md [|h0 rest] o]; simpl;
    try done; by intros [= <-].
Qed.

Lemma WrapAll_OriginalError calls : forall e e',
  isJettison e = true ->
  WrapAll e calls = Return (Some e') ->
  OriginalError (Some e') = OriginalError (Some e).
Proof.
  induction calls as [|[[c msg] ol] calls IH]; intros e e' HJ.
  - by intros [= <-].
  - cbn [WrapAll]. destruct (Wrap c (Some e) msg ol) as [[e1|]|] eqn:HW; try done.
    intros HWs. destruct (Wrap_OriginalError _ _ _ _ _ HW) as [HJ1 Ho].
    rewrite (IH e1 e' HJ1 HWs), Ho. by rewrite HJ.
Qed.

(** X5. The original error of a chain: [Wrap] of a foreign error records
    that error, [Wrap] of a chain value keeps the one the chain has, and
    every later [Wrap] keeps it too. *)
Theorem OriginalError_kept (c : CallSite) (e : error) (msg : string)
    (ol : list Option) (calls : list (CallSite * string * list Option))
    (e1 e' : error) :
  Wrap c (Some e) msg ol = Return (Some e1) ->
  WrapAll e1 calls = Return (Some e') ->
  OriginalError (Some e') = if isJettison e then OriginalError (Some e) else Some e.
Proof.
  intros HW HWs. destruct (Wrap_OriginalError _ _ _ _ _ HW) as [HJ1 Ho].
  by rewrite (WrapAll_OriginalError calls e1 e' HJ1 HWs).
Qed.

(** An instance: a plain error wrapped three times. *)
Lemma OriginalError_kept_witness :
  exists e1 e',
    Wrap examples.siteA (Some (Leaf "timeout")) "load user" [] = Return (Some e1) /\
    WrapAll e1 [(examples.siteB, "handle", [WithCode "E1"]); (examples.siteB, "serve", [])]
      = Return (Some e') /\
    OriginalError (Some e') = Some (Leaf "timeout").
Proof.
  do 2 eexists. split; [reflexivity|]. split; [reflexivity|].
  exact (OriginalError_kept examples.siteA (Leaf "timeout") "load user" []
           [(examples.siteB, "handle", [WithCode "E1"]); (examples.siteB, "serve", [])]
           _ _ eq_refl eq_refl).
Defined.

(** *** GetCodes *)

Lemma segmentCodes_nonempty (es : list Error) :
  Forall (fun code => code <> "")
    (flat_map (fun e => if decide (Code e = "") then [] else [Code e]) es).
Proof.
  induction es as [|e es IH]; simpl; [done|].
  case_decide; simpl; [done|]. by constructor.
Qed.

(** X6. [GetCodes] never returns an empty code, and it returns no code at
    all for nil and for an error that is not a chain value. *)
Theorem GetCodes_nonempty (err : option error) :
  Forall (fun code => code <> "") (GetCodes err) /\
  (match err with
   | Some (Jettison _ _ _ _ _) => True
   | _ => GetCodes err = []
   end).
Proof.
  split; [|by destruct err as [[]|]].
  destruct err as [[t|t n|t cs|m w md hs o]|]; simpl; try done.
  induction hs as [|h hs IH]; simpl; [done|].
  apply Forall_app. split; [apply segmentCodes_nonempty|done].
Qed.

(** X7. The codes after a [Wrap]: the code of the new segment (the last
    [WithCode] of the call, else the one [NewError] gives), when it is not
    empty, in front of the codes of the wrapped error. *)
Theorem GetCodes_Wrap (c : CallSite) (e : error) (msg : string) (ol : list Option)
    (e' : error) :
  Wrap c (Some e) msg ol = Return (Some e') ->
  GetCodes (Some e') =
    codeList (lastCode ol (Code (NewError c msg))) ++ GetCodes (Some e).
Proof.
  rewrite Wrap_unfold.
  destruct e as [t|t n|t cs|m w md [|h0 rest] o]; cbn [wrapTarget Clone Hops fst snd];
    try done; intros [= <-]; cbn [GetCodes flat_map];
    (erewrite applyHops_Errors;
     [|unfold readyHop; cbn [Errors setErrors]; reflexivity]);
    unfold codeList; simpl; repeat case_decide; try done;
    by rewrite ?app_nil_r.
Qed.

(** An instance: a chain with code [X] wrapped without a code option. *)
Lemma GetCodes_Wrap_witness :
  exists e',
    Wrap examples.siteB (Some (New examples.siteA "a" [WithCode "X"])) "b" []
      = Return (Some e') /\
    GetCodes (Some e') = ["X"].
Proof.
  eexists. split; [reflexivity|].
  exact (GetCodes_Wrap examples.siteB (New examples.siteA "a" [WithCode "X"]) "b" []
           _ eq_refl).
Defined.

(** *** hasTrace *)

(** X8. What [hasTrace] returns: a hop with a non-empty binary when it
    reports a trace, the zero hop when it reports none. *)
Theorem hasTrace_result : forall e : error,
  if snd (hasTrace e)
  then Binary (fst (hasTrace e)) <> ""
  else fst (hasTrace e) = zeroHop.
Proof.
  fix IH 1. intros [t|t [n|]|t cs|m [w|] md hs o]; simpl; try done.
  - apply IH.
  - case_decide; [apply IH|done].
  - by case_decide.
Qed.

(** X9. The sentinel pattern of [WithoutStackTrace]: an error made by
    [New] with [WithoutStackTrace] among its options (and no binary named
    after it) carries no trace, neither on its hop nor in its metadata,
    and the first [Wrap] of it captures both at the wrapping call site. *)
Theorem sentinel_gets_trace (c c2 : CallSite) (msg m : string)
    (ol1 ol2 ol' : list Option) :
  forallb (fun o => negb (namesBinary o)) ol2 = true ->
  hopTrace (New c msg (ol1 ++ WithoutStackTrace :: ol2)) = None /\
  hasTrace (New c msg (ol1 ++ WithoutStackTrace :: ol2)) = (zeroHop, false) /\
  exists e',
    Wrap c2 (Some (New c msg (ol1 ++ WithoutStackTrace :: ol2))) m ol'
      = Return (Some e') /\
    hopTrace e' = GetStackTrace c2 2 /\
    metadata e' = applyMetadatas ol' (setTrace (trace c2) zeroMetadata).
Proof.
  intros Hol.
  assert (Hh : hasTrace (New c msg (ol1 ++ WithoutStackTrace :: ol2)) = (zeroHop, false)).
  { rewrite New_unfold. simpl. rewrite applyMetadatas_app.
    change (applyMetadatas (WithoutStackTrace :: ol2) ?md)
      with (applyMetadatas ol2 (ApplyMetadata WithoutStackTrace md)).
    rewrite decide_True; [done|]. by apply applyMetadatas_binary. }
  assert (Ht : hopTrace (New c msg (ol1 ++ WithoutStackTrace :: ol2)) = None).
  { rewrite New_unfold. unfold hopTrace. cbn [Hops].
    by rewrite applyHops_WithoutStackTrace. }
  split; [done|]. split; [done|].
  rewrite Wrap_unfold, Hh. revert Ht. rewrite New_unfold.
  cbn [wrapTarget Clone Hops fst snd hopTrace]. intros Ht.
  eexists. split; [reflexivity|]. split; [|done].
  unfold hopTrace. cbn [Hops]. rewrite applyHops_trace_keep.
  - by rewrite readyHop_trace, Ht.
  - rewrite readyHop_length, applyHops_length. simpl. lia.
Qed.

(** An instance: the example of the source, [ErrFoo] wrapped by [bar]. *)
Lemma sentinel_gets_trace_witness :
  exists e',
    Wrap examples.siteB (Some (New examples.siteA "foo" [WithoutStackTrace])) "bar" []
      = Return (Some e') /\
    hopTrace e' = Some ["main.retry"; "main.main"] /\
    metadata e' = mkMetadata (mkHop "svc-a" (Some ["main.retry"; "main.main"]) []) "".
Proof.
  exact (proj2 (proj2 (sentinel_gets_trace examples.siteA examples.siteB "foo" "bar"
                         [] [] [] eq_refl))).
Defined.

(** *** IsAny *)

(** X10. [IsAny] is true exactly when [Is] holds for one of the targets;
    without targets it is false, and the targets of two lists are tried as
    those of one. *)
Theorem IsAny_exists (Is : option error -> option error -> bool)
    (err : option error) (targets targets' : list (option error)) :
  (IsAny Is err targets = true <-> exists t, In t targets /\ Is err t = true) /\
  IsAny Is err [] = false /\
  IsAny Is err (targets ++ targets') = IsAny Is err targets || IsAny Is err targets'.
Proof.
  split; [|split; [done|]].
  - induction targets as [|t ts IH]; simpl.
    + split; [done|]. by intros (t & [] & _).
    + destruct (Is err t) eqn:E.
      * split; [|done]. intros _. exists t. auto.
      * rewrite IH. split.
        -- intros (t' & Hin & Ht). exists t'. auto.
        -- intros (t' & [<-|Hin] & Ht); [congruence|]. by exists t'.
  - induction targets as [|t ts IH]; simpl; [done|].
    by destruct (Is err t).
Qed.


(** *** Runs of Wrap *)

(** X11. Segments are kept newest first: after a run of [Wrap] calls on
    a chain value with a hop, the current hop holds the segments of the
    calls, the last call's first, in front of the segments it had, and the
    other hops are as they were. *)
Theorem WrapAll_segments (calls : list (CallSite * string * list Option)) :
  forall (m : string) (w : option error) (md : Metadata) (h0 : Hop)
         (rest : list Hop) (o : option error),
  exists e' h',
    WrapAll (Jettison m w md (h0 :: rest) o) calls = Return (Some e') /\
    Hops e' = h' :: rest /\
    Errors h' =
      rev (map (fun call => newSegment (fst (fst call)) (snd (fst call)) (snd call))
               calls)
      ++ Errors h0.
Proof.
  induction calls as [|[[c msg] ol] calls IH]; intros m w md h0 rest o.
  - exists (Jettison m w md (h0 :: rest) o), h0. by split_and!.
  - cbn [WrapAll]. rewrite Wrap_unfold. cbn [wrapTarget Clone Hops fst snd].
    destruct (IH msg (Some (Jettison m w md (h0 :: rest) o))
                (applyMetadatas ol (freshMetadata c
                   (snd (hasTrace (Jettison m w md (h0 :: rest) o)))))
                (applyHops ol (readyHop c msg h0)) rest o)
      as (e' & h' & HW & Hh & He).
    exists e', h'. split; [done|]. split; [done|].
    rewrite He. erewrite applyHops_Errors;
      [|unfold readyHop; cbn [Errors setErrors]; reflexivity].
    cbn [map rev fst snd]. by rewrite <- app_assoc.
Qed.

End errors_more.

(** ** package log: more on the error object and the entry *)
Module log_more.
Import models(KeyValue, mkKeyValue, Key, Value).
Import log log_facts.

Section errorEntry.
Context `{Errors}.

Lemma errorStep_collects e m err :
  eoParameters (fst (errorStep (e, m) err)) =
    eoParameters e ++ match asInternal err with Some je => ieKV je | None => [] end /\
  eoStack (fst (errorStep (e, m) err)) =
    eoStack e ++ match asInternal err with Some je => binaryList je | None => [] end.
Proof.
  unfold errorStep, binaryList. destruct (asInternal err) as [je|]; simpl.
  - split; [done|]. case_decide; [by rewrite app_nil_r|done].
  - by rewrite !app_nil_r.
Qed.

Lemma fold_errorStep_collects path : forall e m,
  eoParameters (fst (fold_left errorStep path (e, m))) =
    eoParameters e ++ flat_map ieKV (internals path) /\
  eoStack (fst (fold_left errorStep path (e, m))) =
    eoStack e ++ flat_map binaryList (internals path).
Proof.
  induction path as [|err path IH]; intros e m.
  - simpl. by rewrite !app_nil_r.
  - cbn [fold_left]. pose proof (errorStep_collects e m err) as [Hp Hs].
    destruct (errorStep (e, m) err) as [e1 m1]. cbn [fst] in Hp, Hs.
    destruct (IH e1 m1) as [IHp IHs]. rewrite IHp, IHs, Hp, Hs.
    unfold internals. simpl.
    destruct (asInternal err) as [je|]; simpl; by rewrite <- ?app_assoc, ?app_nil_r.
Qed.

(** X12. The error object of a path collects, in path order, the
    key/value pairs of every node that is an [*internal.Error], and the
    binaries of those nodes that name one. *)
Theorem errorEntry_collects (path : list error) :
  eoParameters (errorEntry path) = flat_map ieKV (internals path) /\
  eoStack (errorEntry path) = flat_map binaryList (internals path).
Proof.
  destruct path as [|err path]; [done|].
  rewrite errorEntry_cons. cbn [eoParameters eoStack].
  destruct (fold_errorStep_collects (err :: path) zeroErrorObject []) as [Hp Hs].
  split; [exact Hp|exact Hs].
Qed.

(** *** addErrors and WithError *)

Lemma fold_addPath paths : forall e,
  Parameters (fold_left addPath paths e) =
    Parameters e ++ flat_map (fun p => eoParameters (errorEntry p)) paths /\
  ErrorObjects (fold_left addPath paths e) = ErrorObjects e ++ map errorEntry paths /\
  EntryErrorObject (fold_left addPath paths e) = EntryErrorObject e /\
  ErrorCode (fold_left addPath paths e) = ErrorCode e /\
  Message (fold_left addPath paths e) = Message e /\
  EntryLevel (fold_left addPath paths e) = EntryLevel e.
Proof.
  induction paths as [|p paths IH]; intros e.
  - simpl. by rewrite !app_nil_r.
  - cbn [fold_left]. destruct (IH (addPath e p)) as (Hp & Ho & Hs & Hc & Hm & Hl).
    rewrite Hp, Ho, Hs, Hc, Hm, Hl. unfold addPath. simpl.
    by rewrite <- !app_assoc.
Qed.

(** X13. [addErrors] with a non-nil error appends to the entry's
    parameters those of the error object of every path, in the order of
    the paths. With exactly one path that object becomes the entry's
    single error object and the list of error objects is left alone; with
    none or several, the objects are appended to the list and the single
    error object is left alone. Message, level and error code stay. *)
Theorem addErrors_paths (e : Entry) (err : error) :
  let e' := addErrors e (Some err) in
  Parameters e' =
    Parameters e ++ flat_map (fun p => eoParameters (errorEntry p)) (Flatten err) /\
  match Flatten err with
  | [p] => EntryErrorObject e' = Some (errorEntry p) /\ ErrorObjects e' = ErrorObjects e
  | paths => EntryErrorObject e' = EntryErrorObject e /\
             ErrorObjects e' = ErrorObjects e ++ map errorEntry paths
  end /\
  ErrorCode e' = ErrorCode e /\ Message e' = Message e /\ EntryLevel e' = EntryLevel e.
Proof.
  unfold addErrors. destruct (Flatten err) as [|p [|p' paths]] eqn:E.
  - simpl. by rewrite !app_nil_r.
  - simpl. by rewrite !app_nil_r.
  - destruct (fold_addPath (p :: p' :: paths) e) as (Hp & Ho & Hs & Hc & Hm & Hl).
    by split_and!.
Qed.

Lemma addErrors_ErrorCode (e : Entry) (err : option error) :
  ErrorCode (addErrors e err) = ErrorCode e.
Proof.
  destruct err as [err|]; [|done]. unfold addErrors.
  destruct (Flatten err) as [|p [|p' paths]]; try done.
  by destruct (fold_addPath (p :: p' :: paths) e) as (_ & _ & _ & Hc & _).
Qed.

End errorEntry.

Section makeEntry.
Context `{Runtime} `{Errors}.

(** X14. [makeEntry] changes only the parameters of the entry that the
    options leave: message, source, level, time stamp and the error
    fields are those after the last option. So [WithLevel] as the last
    option sets the level of the entry, and [WithError] as the last
    option puts the most recent code of the error at the root of the
    entry, leaving the error code alone when the error has no code. *)
Theorem makeEntry_fields (ctx : context) (msg : string) (lvl : Level)
    (opts : list Option) (level : Level) (err : option error) :
  let e0 := fold_left (fun l (o : Option) => o l) opts (newEntry msg lvl 3) in
  (Message (makeEntry ctx msg lvl opts) = Message e0 /\
   Source (makeEntry ctx msg lvl opts) = Source e0 /\
   EntryLevel (makeEntry ctx msg lvl opts) = EntryLevel e0 /\
   Timestamp (makeEntry ctx msg lvl opts) = Timestamp e0 /\
   ErrorCode (makeEntry ctx msg lvl opts) = ErrorCode e0 /\
   EntryErrorObject (makeEntry ctx msg lvl opts) = EntryErrorObject e0 /\
   ErrorObjects (makeEntry ctx msg lvl opts) = ErrorObjects e0) /\
  EntryLevel (makeEntry ctx msg lvl (opts ++ [WithLevel level])) = level /\
  ErrorCode (makeEntry ctx msg lvl (opts ++ [WithError err])) =
    match GetCodes err with
    | code :: _ => Some code
    | [] => ErrorCode e0
    end.
Proof.
  intros e0. split; [by split_and!|]. split.
  - unfold makeEntry. by rewrite fold_left_app.
  - unfold makeEntry. rewrite fold_left_app. cbn [fold_left ErrorCode setParameters].
    unfold WithError. rewrite addErrors_ErrorCode. fold e0.
    by destruct (GetCodes err).
Qed.

End makeEntry.

End log_more.

(** ** package errors, with the store: New, Wrap of a foreign error, GetCodes *)
Module heap_more.
Import models(Error, mkError, Code).
Import heap heap_facts agreement agreement_facts.

(** *** New *)

Lemma applyLocal_agrees s0 b ol : forall s h ph md,
  extends s0 s -> errorArrays s0 !! b = None -> hopAt s h b ph ->
  Errors (Trace md) = None ->
  exists h' md' s',
    applyLocal ol h md s = inr ((h', md'), s') /\
    extends s0 s' /\ hopAt s' h' b (jettison.applyHops ol ph) /\
    objects s' = objects s /\ hopArrays s' = hopArrays s /\
    Errors (Trace md') = None /\
    metadataOf md' = jettison.applyMetadatas ol (metadataOf md).
Proof.
  induction ol as [|o ol IH]; intros s h ph md Hx Hb Hat Hmd.
  - exists h, md, s. by split_and!.
  - simpl. destruct (ApplyHop_agrees s0 s o h b ph Hx Hb Hat)
      as (h1 & s1 & Ha & Hx1 & Ho1 & Hh1 & He1 & Hat1).
    rewrite (bind_inr _ _ _ _ _ Ha).
    destruct (ApplyMetadata_agrees o md Hmd) as [Hmd1 Hmo].
    destruct (IH s1 h1 _ (ApplyMetadata o md) Hx1 Hb Hat1 Hmd1)
      as (h' & md' & s' & Hap & Hx' & Hat' & Hobj & Hhop & Hmd' & Hmv).
    exists h', md', s'. rewrite Hmv, Hmo. split_and!; try done; congruence.
Qed.

(** The run of [New], with what it allocates. *)
Lemma New_run hc msg ol s ph :
  models.Binary ph = Binary (NewHop hc) ->
  models.StackTrace ph = GetStackTrace hc 2 ->
  models.Errors ph = [NewError hc msg] ->
  exists p a b h md s',
    New hc msg ol s = inr (Some p, s') /\
    extends s s' /\
    objects s !! p = None /\ hopArrays s !! a = None /\ errorArrays s !! b = None /\
    objects s' !! p = Some (Jettison (mkJettisonError msg None md (Some a) None)) /\
    hopArrays s' !! a = Some [h] /\
    hopAt s' h b (jettison.applyHops ol ph) /\
    Errors (Trace md) = None /\
    metadataOf md = jettison.applyMetadatas ol (metadataOf (newMetadata hc)).
Proof.
  intros Eb Est Ees.
  set (b := fresh (dom (errorArrays s))).
  set (s1 := mkStore (objects s) (hopArrays s) (<[b := [NewError hc msg]]> (errorArrays s))).
  set (h1 := setErrors (Some b) (setStackTrace (GetStackTrace hc 2) (NewHop hc))).
  assert (Hb : errorArrays s !! b = None) by apply fresh_None.
  assert (Hx1 : extends s s1).
  { apply extends_write_errors; [apply extends_refl|done]. }
  assert (Hat1 : hopAt s1 h1 b ph).
  { unfold hopAt. simpl. rewrite lookup_insert_eq. by rewrite Eb, Est, Ees. }
  destruct (applyLocal_agrees s b ol s1 h1 ph (newMetadata hc) Hx1 Hb Hat1 eq_refl)
    as (h' & md' & s2 & Hap & Hx2 & Hat2 & Hobj2 & Hhop2 & Hmd & Hmv).
  set (a := fresh (dom (hopArrays s2))).
  set (p := fresh (dom (objects s2))).
  set (je := mkJettisonError msg None md' (Some a) None).
  exists p, a, b, h', md',
    (mkStore (<[p := Jettison je]> (objects s2)) (<[a := [h']]> (hopArrays s2))
             (errorArrays s2)).
  assert (Hp : objects s !! p = None).
  { change (objects s) with (objects s1). rewrite <- Hobj2. apply fresh_None. }
  assert (Ha : hopArrays s !! a = None).
  { change (hopArrays s) with (hopArrays s1). rewrite <- Hhop2. apply fresh_None. }
  split.
  { unfold New. rewrite (bind_inr _ _ s b s1) by reflexivity.
    fold h1. rewrite (bind_inr _ _ _ _ _ Hap). reflexivity. }
  split.
  { destruct Hx2 as (Ho & Hh & He). unfold extends. simpl. split_and!; [| |done].
    - by apply insert_subseteq_r.
    - by apply insert_subseteq_r. }
  split_and!; try done; simpl; by rewrite ?lookup_insert_eq.
Qed.

(** X15. [New] in the store always returns a chain, made of new objects
    only, and leaves every object of the store as it was. *)
Theorem New_fresh (hc : CallSite) (msg : string) (ol : list jettison.Option)
    (s : store) :
  exists p s',
    New hc msg ol s = inr (Some p, s') /\ extends s s' /\ independent s s' p.
Proof.
  destruct (New_run hc msg ol s
              (models.mkHop (Binary (NewHop hc)) (GetStackTrace hc 2) [NewError hc msg])
              eq_refl eq_refl eq_refl)
    as (p & a & b & h & md & s' & HN & Hx & Hp & Ha & Hb & Ep & Eh & Hat & _).
  exists p, s'. split; [done|]. split; [done|].
  exists a, [h]. unfold ownsHops. split_and!; try done.
  - eexists. split; [exact Ep|done].
  - constructor; [|done]. destruct Hat as (-> & Es & _). split; [done|eauto].
Qed.

(** X16. [New] in the store and [New] on values agree: the chain it
    returns reads as the chain value of [New] at the same call site. *)
Theorem New_agrees (hc : CallSite) (c : internal.CallSite) (msg : string)
    (ol : list jettison.Option) (s : store) :
  sameSite hc c ->
  Binary (NewHop hc) = models.Binary (internal.NewHop c) ->
  exists p s',
    New hc msg ol s = inr (Some p, s') /\
    view s' p = Some (chainView (errors.New c msg ol) None None).
Proof.
  intros (Hbin & Herr & Hst) Hnew.
  destruct (New_run hc msg ol s
              (models.setErrors [internal.NewError c msg]
                 (models.setStackTrace (internal.GetStackTrace c 2) (internal.NewHop c))))
    as (p & a & b & h & md & s' & HN & Hx & Hp & Ha & Hb & Ep & Eh & Hat & Hmd & Hmv);
    simpl; try done; try (by rewrite ?Herr, ?Hst).
  exists p, s'. split; [done|].
  rewrite errors_facts.New_unfold. unfold view. rewrite Ep.
  cbn [metadata Hops message err OriginalErr]. unfold viewHop at 1. rewrite Hmd.
  unfold viewHops. rewrite Eh. cbn [viewHopList].
  destruct Hat as (Eb & Es & Ebin & Est). unfold viewHop. rewrite Eb, Es.
  unfold chainView, hopView. cbn [errors.message errors.metadata errors.Hops map].
  assert (Hm0 : metadataOf (newMetadata hc) = errors.newMetadata c).
  { unfold metadataOf, newMetadata, errors.newMetadata. simpl. by rewrite Hbin, Hst. }
  rewrite <- Hm0, <- Hmv. simpl. by rewrite Ebin, Est.
Qed.

(** An instance: [New("a", WithCode("X"))] in the empty store. *)
Lemma New_agrees_witness :
  exists p s',
    New examples.heapSiteA "a" [jettison.WithCode "X"] examples.emptyStore
      = inr (Some p, s') /\
    view s' p
      = Some (chainView (errors.New examples.siteA "a" [jettison.WithCode "X"]) None None).
Proof.
  apply (New_agrees examples.heapSiteA examples.siteA "a" [jettison.WithCode "X"]
           examples.emptyStore).
  - by split_and!.
  - reflexivity.
Defined.

(** *** Wrap of a foreign error *)

Lemma wrapTarget_foreign hc s p text u :
  objects s !! p = Some (Foreign text u) ->
  exists q s1 a h,
    wrapTarget hc p s = inr (q, s1) /\ extends s s1 /\ ownsHops s s1 q a [h] /\
    objects s1 !! p = Some (Foreign text u).
Proof.
  intros Ep.
  set (a := fresh (dom (hopArrays s))).
  set (q := fresh (dom (objects s))).
  set (b := fresh (dom (errorArrays s))).
  set (je := mkJettisonError "" None zeroMetadata (Some a) (Some p)).
  set (h := setErrors (Some b) (NewHop hc)).
  exists q, (mkStore (<[q := Jettison je]> (objects s)) (<[a := [h]]> (<[a := [NewHop hc]]> (hopArrays s)))
                     (<[b := [mkError "" text "" []]]> (errorArrays s))), a, h.
  assert (Hq : objects s !! q = None) by apply fresh_None.
  assert (Ha : hopArrays s !! a = None) by apply fresh_None.
  assert (Hb : errorArrays s !! b = None) by apply fresh_None.
  split.
  { unfold wrapTarget. rewrite (bind_inr _ _ _ _ _ (readObject_eq _ _ _ Ep)).
    unfold bind at 1, allocHops. unfold bind at 1, allocObject. simpl.
    unfold bind at 1, allocErrors. simpl. fold a q b.
    erewrite (bind_inr (readHop0 q)); cycle 1.
    { eapply readHop0_eq; simpl; [by rewrite lookup_insert_eq|done|by rewrite lookup_insert_eq]. }
    erewrite (bind_inr (writeHop0 q _)); cycle 1.
    { eapply writeHop0_eq; simpl; [by rewrite lookup_insert_eq|done|by rewrite lookup_insert_eq]. }
    reflexivity. }
  split.
  { unfold extends. simpl. split_and!.
    - by apply insert_subseteq.
    - apply insert_subseteq_r; [done|]. by apply insert_subseteq.
    - by apply insert_subseteq. }
  split.
  - unfold ownsHops. simpl. split_and!; try done.
    + exists je. by rewrite lookup_insert_eq.
    + by rewrite lookup_insert_eq.
    + constructor; [|done]. simpl. split; [done|]. rewrite lookup_insert_eq. eauto.
  - simpl. rewrite lookup_insert_ne; [done|]. intros ->. congruence.
Qed.

(** X17. [Wrap] of a foreign error in the store returns a chain made of
    new objects only and leaves every object of the store, the foreign
    error among them, as it was. *)
Theorem Wrap_foreign_in_store (fuel : nat) (hc : CallSite) (p : positive)
    (msg : string) (ol : list jettison.Option) (s : store) (text : string)
    (u : unwrapping) (found : Hop * bool) :
  objects s !! p = Some (Foreign text u) ->
  hasTrace fuel (Some p) s = inr found ->
  exists r s',
    Wrap fuel hc (Some p) msg ol s = inr (Some r, s') /\
    extends s s' /\ independent s s' r /\
    objects s' !! p = Some (Foreign text u).
Proof.
  intros Ep Hfound.
  destruct (wrapTarget_foreign hc s p text u Ep) as (q & s1 & a & h & Ht & Hx1 & Ho1 & _).
  destruct (Wrap_from_target fuel hc p msg ol s s1 q a h [] found Hx1 Ho1 Hfound Ht)
    as (s' & HW & Hx & Hind).
  exists q, s'. split_and!; try done. by eapply extends_objects.
Qed.

(** *** GetCodes *)

Lemma hopCodes_view s hs : forall vs,
  viewHopList s hs = Some vs ->
  hopCodes hs s =
    inr (flat_map (fun hv =>
           flat_map (fun e => if decide (Code e = "") then [] else [Code e])
                    (vErrors hv)) vs, s).
Proof.
  induction hs as [|h hs IH]; intros vs.
  - by intros [= <-].
  - simpl. destruct (viewHop s h) as [hv|] eqn:Ev; [|done].
    destruct (viewHopList s hs) as [vs'|] eqn:Evs; [|done]. intros [= <-].
    assert (Hseg : segments (Errors h) s = inr (vErrors hv, s)).
    { unfold viewHop in Ev. unfold segments. destruct (Errors h) as [b|].
      - destruct (errorArrays s !! b) as [es|] eqn:E; [|done].
        injection Ev as <-. by apply readErrors_eq.
      - by injection Ev as <-. }
    rewrite (bind_inr _ _ _ _ _ Hseg), (bind_inr _ _ _ _ _ (IH _ eq_refl)).
    reflexivity.
Qed.

(** X18. [GetCodes] in the store only reads: for a chain that can be read
    from the store it returns the non-empty codes of the segments, hop by
    hop in the order of the chain, and the store is the same afterwards;
    for nil and for a foreign error it returns no code. *)
Theorem GetCodes_reads (s : store) (p : positive) (v : ChainView) (text : string)
    (u : unwrapping) :
  GetCodes None s = inr ([], s) /\
  (objects s !! p = Some (Foreign text u) -> GetCodes (Some p) s = inr ([], s)) /\
  (view s p = Some v ->
   GetCodes (Some p) s =
     inr (flat_map (fun hv =>
            flat_map (fun e => if decide (Code e = "") then [] else [Code e])
                     (vErrors hv)) (vHops v), s)).
Proof.
  split; [done|]. split.
  - intros Ep. unfold GetCodes. by rewrite (bind_inr _ _ _ _ _ (readObject_eq _ _ _ Ep)).
  - unfold view. destruct (objects s !! p) as [[|je]|] eqn:Ep; try done.
    destruct (viewHop s (Trace (metadata je))) as [t|]; [|done].
    destruct (viewHops s (Hops je)) as [vs|] eqn:Eh; [|done]. intros [= <-].
    unfold GetCodes. rewrite (bind_inr _ _ _ _ _ (readObject_eq _ _ _ Ep)).
    unfold viewHops in Eh. cbn [vHops]. destruct (Hops je) as [a|].
    + destruct (hopArrays s !! a) as [hs|] eqn:Ea; [|done].
      rewrite (bind_inr _ _ _ _ _ (readHops_eq _ _ _ Ea)). by apply hopCodes_view.
    + by injection Eh as <-.
Qed.

(** An instance: the codes of [New("a", WithCode("X"))]. *)
Lemma GetCodes_reads_witness :
  GetCodes (Some examples.ptrE1) examples.storeE1 = inr (["X"], examples.storeE1).
Proof.
  refine (proj2 (proj2 (GetCodes_reads examples.storeE1 examples.ptrE1
            (mkChainView "a" None
               (mkHopView "svc-a" (Some ["main.run"; "main.main"]) []) "X"
               [mkHopView "svc-a" (Some ["main.run"; "main.main"])
                          [mkError "X" "a" "main.go:10" []]]
               None) "" NoUnwrap)) _).
  vm_compute. reflexivity.
Defined.

(** An instance: the plain error ["timeout"] wrapped with a code. *)
Lemma Wrap_foreign_in_store_witness :
  exists r s',
    Wrap 1 examples.heapSiteA (Some examples_more.foreignPtr) "load user"
         [jettison.WithCode "E_LOAD"] examples_more.foreignStore = inr (Some r, s') /\
    extends examples_more.foreignStore s' /\
    independent examples_more.foreignStore s' r /\
    objects s' !! examples_more.foreignPtr = Some (Foreign "timeout" NoUnwrap).
Proof.
  apply (Wrap_foreign_in_store 1 examples.heapSiteA examples_more.foreignPtr "load user"
           [jettison.WithCode "E_LOAD"] examples_more.foreignStore "timeout" NoUnwrap
           (zeroHop, false)).
  - vm_compute. reflexivity.
  - vm_compute. reflexivity.
Defined.

(** *** Wrap of a chain value: the two models *)


End heap_more.
